(** * unjobs_watcher.py: the watcher's dedup, notification and seen-store logic

    A shallow embedding of [src/unjobs_watcher.py].  Python [str] is a Rocq
    [string] (one [ascii] per character), a job [dict] is a record with the
    five keys the parser writes, the seen [set] is a [gset string], and the
    effects (environment, network, seen file, log) are threaded through a
    small state-and-exception monad. *)

From Stdlib Require Import Ascii ZArith.
From stdpp Require Import base tactics option list sorting strings gmap pretty.

#[local] Set Warnings "-clear-no-such-hyp".

(** ** Module constants (lines 6-7) *)

Definition BASE_URL : string := "https://unjobs.org/duty_stations/bangladesh".
Definition PAGES_TO_CHECK : nat := 2.

(** ** Job records

    [parse_jobs] builds each job as
    [{"id": .., "title": .., "org": .., "link": .., "updated": ..}]. *)

Record job : Type := Job {
  id : string;
  title : string;
  org : string;
  link : string;
  updated : string
}.

#[global] Instance job_eq_dec : EqDecision job.
Proof. solve_decision. Defined.

Definition ids (js : list job) : list string := id <$> js.

(** ** The differ inside [check_once] (lines 117-123) *)

(** The loop [for j in found: if j["id"] in uniq: continue; uniq.add(..);
    seen_ids.append(j)], with its two accumulators. *)
Fixpoint uniq_loop (found : list job) (uniq : gset string) (seen_ids : list job)
  : list job :=
  match found with
  | [] => seen_ids
  | j :: rest =>
      if decide (id j ∈ uniq) then uniq_loop rest uniq seen_ids
      else uniq_loop rest ({[ id j ]} ∪ uniq) (seen_ids ++ [j])
  end.

(** [uniq, seen_ids = set(), []] followed by the loop. *)
Definition unique_jobs (found : list job) : list job := uniq_loop found ∅ [].

(** [new = [j for j in seen_ids if j["id"] not in seen]]. *)
Definition new_jobs (seen : gset string) (seen_ids : list job) : list job :=
  filter (λ j, id j ∉ seen) seen_ids.

(** [seen.update([j["id"] for j in new])]. *)
Definition seen_update (seen : gset string) (new : list job) : gset string :=
  seen ∪ list_to_set (ids new).

(** The differ as the orchestrator runs it: dedup, then novelty filter. *)
Definition differ (seen : gset string) (found : list job) : list job :=
  new_jobs seen (unique_jobs found).

(** Written from the specification, to compare the loop with (§4.3, step 1:
    "iterate in order, keep only the first record for each distinct id;
    later duplicates are dropped"): the head is kept, and every later record
    with the head's [id] is dropped from what follows. *)
Fixpoint spec_first_per_id (found : list job) : list job :=
  match found with
  | [] => []
  | j :: rest => j :: filter (λ k, id k ≠ id j) (spec_first_per_id rest)
  end.

(** ** Characters and the string helpers the parser relies on *)

(** [str.isspace] / regex [\s] on characters below U+0100. *)
Definition py_isspace (c : ascii) : bool :=
  let n := nat_of_ascii c in
  (9 <=? n) && (n <=? 13) || (28 <=? n) && (n <=? 32)
  || (n =? 133) || (n =? 160).

(** Regex [\d] on characters below U+0100: the ten ASCII digits. *)
Definition py_isdigit (c : ascii) : bool :=
  let n := nat_of_ascii c in (48 <=? n) && (n <=? 57).

Fixpoint lstrip (s : string) : string :=
  match s with
  | String c r => if py_isspace c then lstrip r else s
  | EmptyString => EmptyString
  end.

(** [str.strip()]. *)
Definition strip (s : string) : string :=
  String.rev (lstrip (String.rev (lstrip s))).

(** The maximal run of non-space characters at the head: a greedy [\S*]. *)
Fixpoint nonspace_run (s : string) : string :=
  match s with
  | String c r => if py_isspace c then EmptyString else String c (nonspace_run r)
  | EmptyString => EmptyString
  end.

(** [s.startswith(p)], returning what follows the prefix. *)
Fixpoint after_prefix (p s : string) : option string :=
  match p, s with
  | EmptyString, _ => Some s
  | String a p', String b s' => if decide (a = b) then after_prefix p' s' else None
  | String _ _, EmptyString => None
  end.

Definition startswith (s p : string) : bool := bool_decide (is_Some (after_prefix p s)).

(** [\d{n}] at the head of [s]. *)
Fixpoint digits (n : nat) (s : string) : option string :=
  match n, s with
  | O, _ => Some s
  | S n', String c r => if py_isdigit c then digits n' r else None
  | S _, EmptyString => None
  end.

(** [pattern.search(s)] for a pattern given by its anchored matcher: the
    leftmost position at which the pattern matches. *)
Fixpoint re_search {A} (at_head : string → option A) (s : string) : option A :=
  match at_head s with
  | Some m => Some m
  | None => match s with
            | String _ r => re_search at_head r
            | EmptyString => None
            end
  end.

(** [/jobs/] (line 32). *)
Definition re_jobs_at (s : string) : option unit :=
  _ ← after_prefix "/jobs/" s; Some ().

(** [Updated:\s*\d{4}-\d{2}-\d{2}T] (line 53). *)
Definition re_updated_stamp_at (s : string) : option unit :=
  r ← after_prefix "Updated:" s;
  r ← digits 4 (lstrip r);
  r ← after_prefix "-" r;
  r ← digits 2 r;
  r ← after_prefix "-" r;
  r ← digits 2 r;
  _ ← after_prefix "T" r;
  Some ().

(** [Updated:\s*(\S+)] (line 54); the result is [group(1)]. *)
Definition re_updated_token_at (s : string) : option string :=
  r ← after_prefix "Updated:" s;
  let tok := nonspace_run (lstrip r) in
  if decide (tok = "") then None else Some tok.

(** ** Exceptions and outcomes *)

Inductive exn : Type :=
| ValueError
| TypeError
| AttributeError
| JSONDecodeError
| RequestException.

#[global] Instance exn_eq_dec : EqDecision exn.
Proof. solve_decision. Defined.

Inductive outcome (A : Type) : Type :=
| Returns (a : A)
| Raises (e : exn).
Arguments Returns {A} a.
Arguments Raises {A} e.

(** [int(s)] for a [str]: surrounding whitespace is stripped, one sign is
    allowed, and single underscores may separate digits (the interpreter's
    cap on the number of digits is left out). *)
Definition digit_value (c : ascii) : option Z :=
  if py_isdigit c then Some (Z.of_nat (nat_of_ascii c) - 48)%Z else None.

Fixpoint int_digits (s : string) (acc : Z) (after_digit : bool) : option Z :=
  match s with
  | EmptyString => if after_digit then Some acc else None
  | String c r =>
      match digit_value c with
      | Some d => int_digits r (10 * acc + d)%Z true
      | None =>
          if decide (c = "_"%char) then
            if after_digit then int_digits r acc false else None
          else None
      end
  end.

Definition py_int (s : string) : outcome Z :=
  let body := strip s in
  let parsed :=
    match body with
    | String "-" r => Z.opp <$> int_digits r 0%Z false
    | String "+" r => int_digits r 0%Z false
    | _ => int_digits body 0%Z false
    end in
  match parsed with
  | Some n => Returns n
  | None => Raises ValueError
  end.

(** ** What the parser sees of a page

    [BeautifulSoup(html, "html.parser")] is a library call; a page is
    represented by the part of the parse tree that [parse_jobs] inspects: its
    [<a>] elements in document order, each with its stripped text, its [href]
    attribute, the siblings that follow it, the siblings that follow its
    parent, and the text nodes that come after it in the document.  A chain
    of [next_sibling] links is a list: the head is the node, the tail what
    its [next_sibling] leads to, and [[]] is [None]. *)

Inductive node : Type :=
| Tag (text : string)             (* carries get_text(strip=True) *)
| NavigableString (s : string).

(** Truth value of a node: a tag is always true, a [NavigableString] is a
    [str] and is false when empty. *)
Definition truthy (n : node) : bool :=
  match n with
  | Tag _ => true
  | NavigableString s => bool_decide (s ≠ "")
  end.

(** Line 47. *)
Definition node_text (n : node) : string :=
  match n with
  | Tag text => text
  | NavigableString s => strip s
  end.

Record anchor : Type := Anchor {
  a_text : string;                      (* a.get_text(strip=True) *)
  a_href : option string;               (* a.get("href") *)
  a_next_siblings : list node;          (* a.next_sibling and onwards *)
  a_parent_next_siblings : list node;   (* a.parent.next_sibling and onwards *)
  a_next_strings : list string          (* the strings find_next(string=..) visits *)
}.

Definition html : Type := list anchor.

(** [x or y] for two node references. *)
Definition node_or (x y : list node) : list node :=
  match x with
  | n :: _ => if truthy n then x else y
  | [] => y
  end.

(** Lines 41-50: the walk that looks for an organisation text.  [k] is the
    number of iterations left of [range(6)], [cur_next] is
    [node.next_sibling] of the node the walk stands on. *)
Fixpoint org_walk (k : nat) (parent_next cur_next : list node) : string :=
  match k with
  | O => ""
  | S k' =>
      match node_or cur_next parent_next with
      | [] => ""
      | n :: n_next =>
          if truthy n then
            let txt := node_text n in
            if bool_decide (txt ≠ "") && negb (startswith txt "Updated:")
            then txt
            else org_walk k' parent_next n_next
          else ""
      end
  end.

(** Line 32: [soup.find_all("a", href=re.compile(r"/jobs/"))]. *)
Definition find_all_jobs (soup : html) : list anchor :=
  filter (λ a, is_Some (a_href a ≫= re_search re_jobs_at)) soup.

(** Line 53: the first following string in which the stamp pattern is found. *)
Definition find_next_updated (a : anchor) : option string :=
  List.find (λ s, bool_decide (is_Some (re_search re_updated_stamp_at s)))
            (a_next_strings a).

(** Line 54: [re.search(..).group(1) if upd_node else ""]; [None.group]
    is an [AttributeError]. *)
Definition updated_of (upd_node : option string) : outcome string :=
  match upd_node with
  | Some s =>
      if decide (s = "") then Returns ""
      else match re_search re_updated_token_at s with
           | Some tok => Returns tok
           | None => Raises AttributeError
           end
  | None => Returns ""
  end.

Section Parser.

(** [urllib.parse.urljoin], a library function. *)
Variable urljoin : string → string → string.

(** The loop of lines 32-57 with its accumulators [jobs] and [seen_links]. *)
Fixpoint parse_loop (base : string) (anchors : list anchor)
    (jobs : list job) (seen_links : gset string) : outcome (list job) :=
  match anchors with
  | [] => Returns jobs
  | a :: rest =>
      let title := a_text a in
      let href := default "" (a_href a) in
      let link := urljoin base href in
      if bool_decide (title = "") || bool_decide (link ∈ seen_links)
      then parse_loop base rest jobs seen_links
      else
        let seen_links' := {[ link ]} ∪ seen_links in
        let org := org_walk 6 (a_parent_next_siblings a) (a_next_siblings a) in
        match updated_of (find_next_updated a) with
        | Raises e => Raises e
        | Returns updated =>
            let job_id := link +:+ "::" +:+ updated in
            parse_loop base rest
              (jobs ++ [Job job_id title org link updated]) seen_links'
        end
  end.

Definition parse_jobs (page : html) (base : string) : outcome (list job) :=
  parse_loop base (find_all_jobs page) [] ∅.

End Parser.

(** ** JSON documents and the seen file *)

(** What [json.load] returns.  A number is kept as its literal: the store
    only ever asks whether a value is iterable and hashable. *)
#[warnings="-register-all"] Inductive json : Type :=
| JNull
| JBool (b : bool)
| JNum (literal : string)
| JStr (s : string)
| JArr (items : list json)
| JObj (members : list (string * json)).

(** The text of [SEEN_FILE] as [json.load] reads it: either it does not
    decode, or it is the document [v]. *)
Inductive content : Type :=
| Undecodable
| Document (v : json).

(** [sorted(..)] on strings: ascending by character code. *)
Definition sorted (l : list string) : list string := merge_sort String.le l.

(** Line 22: what [json.dump(sorted(seen), f, ..)] leaves in the file. *)
Definition dump_sorted (seen : gset string) : content :=
  Document (JArr (JStr <$> sorted (elements seen))).

(** ** [set(..)] of a decoded document (line 17) *)

(** The result of [set(json.load(f))] when it does not raise: a set of
    strings, or a set with members that are not strings, given by the
    scalars it was built from. *)
Inductive pyset : Type :=
| StrSet (s : gset string)
| MixedSet (members : list json).

(** Lists and dicts are unhashable. *)
Definition hashable (v : json) : bool :=
  match v with
  | JArr _ | JObj _ => false
  | _ => true
  end.

Definition as_str (v : json) : option string :=
  match v with
  | JStr s => Some s
  | _ => None
  end.

(** The characters of a [str], each as a one-character [str]. *)
Fixpoint chars (s : string) : list string :=
  match s with
  | EmptyString => []
  | String c r => String c EmptyString :: chars r
  end.

Definition py_set (v : json) : outcome pyset :=
  match v with
  | JNull | JBool _ | JNum _ => Raises TypeError          (* not iterable *)
  | JStr s => Returns (StrSet (list_to_set (chars s)))
  | JObj members => Returns (StrSet (list_to_set members.*1))
  | JArr items =>
      if forallb hashable items then
        match mapM as_str items with
        | Some strs => Returns (StrSet (list_to_set strs))
        | None => Returns (MixedSet items)
        end
      else Raises TypeError                                (* unhashable *)
  end.

(** ** Effects *)

Inductive event : Type :=
| Get (url : string)                                 (* requests.get *)
| Sleep (seconds : nat)                              (* time.sleep *)
| LogInfo (msg : string)                             (* logging.info *)
| LogException (msg : string)                        (* logging.exception *)
| TelegramPost (url chat text : string)              (* requests.post *)
| SmtpSend (host : string) (port : Z)
           (user pw to subject body : string)        (* smtplib session *)
| WriteSeen (c : content).                           (* open(SEEN_FILE, "w") *)

(** The mutable part of a run: the set object that [seen] refers to (it is
    updated in place and shared with the caller), the seen file on disk
    ([None] when it does not exist), and what the run did so far. *)
Record state : Type := State {
  seen_set : gset string;
  seen_file : option content;
  journal : list event
}.

Definition M (A : Type) : Type := state → outcome A * state.

#[global] Instance M_ret : MRet M := λ A a st, (Returns a, st).
#[global] Instance M_bind : MBind M := λ A B f m st,
  match m st with
  | (Returns a, st') => f a st'
  | (Raises e, st') => (Raises e, st')
  end.

Definition raise {A} (e : exn) : M A := λ st, (Raises e, st).

Definition lift {A} (o : outcome A) : M A := λ st, (o, st).

(** [try: body except Exception: handler]. *)
Definition try_except {A} (body : M A) (handler : M A) : M A := λ st,
  match body st with
  | (Returns a, st') => (Returns a, st')
  | (Raises _, st') => handler st'
  end.

Definition emit (e : event) : M unit := λ st,
  (Returns (), State (seen_set st) (seen_file st) (journal st ++ [e])).

Definition get_seen : M (gset string) := λ st, (Returns (seen_set st), st).

Definition set_seen (s : gset string) : M unit := λ st,
  (Returns (), State s (seen_file st) (journal st)).

Definition read_seen_file : M (option content) := λ st, (Returns (seen_file st), st).

Definition write_seen_file (c : content) : M unit := λ st,
  (Returns (), State (seen_set st) (Some c) (journal st ++ [WriteSeen c])).

(** Lines 14-18. *)
Definition load_seen : M pyset :=
  f ← read_seen_file;
  match f with
  | Some Undecodable => raise JSONDecodeError
  | Some (Document v) => lift (py_set v)
  | None => mret (StrSet ∅)
  end.

(** Lines 20-22. *)
Definition save_seen (seen : gset string) : M unit :=
  write_seen_file (dump_sorted seen).

(** ** The notifier and the orchestrator *)

(** What the network does: [http_get] is the page a GET yields ([None] when
    [requests.get] or [raise_for_status] raises), the other two say whether
    a Telegram POST and an SMTP session go through without raising. *)
Record network : Type := Network {
  http_get : string → option html;
  telegram_ok : string → string → string → bool;
  smtp_ok : string → Z → string → string → string → string → string → bool
}.

(** Truth value of what [os.getenv] returns: [None] and [""] are false. *)
Definition env_truthy (v : option string) : bool :=
  match v with
  | Some s => bool_decide (s ≠ "")
  | None => false
  end.

Definition NL : string := String (ascii_of_nat 10) EmptyString.

(** ["sep".join(l)]. *)
Fixpoint str_join (sep : string) (l : list string) : string :=
  match l with
  | [] => ""
  | [x] => x
  | x :: rest => x +:+ sep +:+ str_join sep rest
  end.

(** Line 100: the five entries one job adds to [lines]. *)
Definition job_lines (j : job) : list string :=
  [ "<b>" +:+ title j +:+ "</b>";
    org j;
    link j;
    (if decide (updated j = "") then "" else "Updated: " +:+ updated j);
    "" ].

(** Lines 98-100. *)
Definition alert_lines (new : list job) : list string :=
  new ≫= job_lines.

(** Line 101. *)
Definition alert_message (new : list job) : string :=
  str_join NL (filter (λ x, x ≠ "") (alert_lines new)).

(** Line 109. *)
Definition page_url (p : nat) : string :=
  if decide (p = 1) then BASE_URL else BASE_URL +:+ "/" +:+ pretty p.

Section Watcher.

Variable urljoin : string → string → string.
(** [os.environ]. *)
Variable env : gmap string string.
Variable net : network.

Definition getenv (name : string) : option string := env !! name.

(** Lines 24-27. *)
Definition fetch (url : string) : M html :=
  emit (Get url);;
  match http_get net url with
  | Some page => mret page
  | None => raise RequestException
  end.

Definition requests_post (url chat text : string) : M unit :=
  emit (TelegramPost url chat text);;
  if telegram_ok net url chat text then mret () else raise RequestException.

(** Lines 60-72. *)
Definition send_telegram (msg : string) : M bool :=
  let token := getenv "TELEGRAM_BOT_TOKEN" in
  let chat := getenv "TELEGRAM_CHAT_ID" in
  if negb (env_truthy token && env_truthy chat) then mret false
  else
    let url := "https://api.telegram.org/bot" +:+ default "" token
               +:+ "/sendMessage" in
    try_except
      (requests_post url (default "" chat) msg;; mret true)
      (emit (LogException "Telegram failed");; mret false).

Definition smtp_session (host : string) (port : Z)
    (user pw to subject body : string) : M unit :=
  emit (SmtpSend host port user pw to subject body);;
  if smtp_ok net host port user pw to subject body then mret ()
  else raise RequestException.

(** Lines 74-93.  The port is read and converted before the check that
    the channel is configured, outside the [try]. *)
Definition send_email (subject body : string) : M bool :=
  let host := getenv "SMTP_HOST" in
  let user := getenv "SMTP_USER" in
  let pw := getenv "SMTP_PASS" in
  let to := getenv "ALERT_EMAIL" in
  port ← (match getenv "SMTP_PORT" with
          | Some s => if decide (s = "") then mret 587%Z else lift (py_int s)
          | None => mret 587%Z
          end);
  if negb (env_truthy host && env_truthy user && env_truthy pw && env_truthy to)
  then mret false
  else
    try_except
      (smtp_session (default "" host) port (default "" user) (default "" pw)
                    (default "" to) subject body;;
       mret true)
      (emit (LogException "Email failed");; mret false).

(** Lines 95-104. *)
Definition alert (new : list job) : M unit :=
  match new with
  | [] => mret ()
  | _ :: _ =>
      let msg := alert_message new in
      ok ← send_telegram msg;
      if negb ok then send_email "New UNjobs - Bangladesh" msg;; mret ()
      else mret ()
  end.

(** Lines 108-115: one iteration per page; [found] is returned as the loop
    leaves it. *)
Fixpoint fetch_pages (pages : list nat) (found : list job) : M (list job) :=
  match pages with
  | [] => mret found
  | p :: rest =>
      found' ← try_except
                 (page ← fetch (page_url p);
                  jobs ← lift (parse_jobs urljoin page BASE_URL);
                  emit (Sleep 1);;
                  mret (found ++ jobs))
                 (emit (LogException "Fetch/parse error");; mret found);
      fetch_pages rest found'
  end.

(** Lines 106-131.  [seen] is the set object held in the state. *)
Definition check_once : M (gset string) :=
  found ← fetch_pages (seq 1 PAGES_TO_CHECK) [];
  let seen_ids := unique_jobs found in
  seen ← get_seen;
  let new := new_jobs seen seen_ids in
  match new with
  | _ :: _ =>
      emit (LogInfo ("New jobs: " +:+ pretty (length new)));;
      alert new;;
      set_seen (seen_update seen new);;
      seen ← get_seen;
      save_seen seen;;
      get_seen
  | [] =>
      emit (LogInfo "No new jobs.");;
      get_seen
  end.

End Watcher.

(** ** Predicates used in the statements *)

(** Line 56: the identity of a record. *)
Definition id_from_link (j : job) : Prop :=
  id j = link j +:+ "::" +:+ updated j.

(** A computation that leaves the seen set and the seen file as they are,
    whatever its outcome. *)
Definition keeps_store {A} (m : M A) : Prop :=
  ∀ st, seen_set (m st).2 = seen_set st ∧ seen_file (m st).2 = seen_file st.

(** A computation that cannot raise. *)
Definition returns {A} (m : M A) : Prop :=
  ∀ st, ∃ a, (m st).1 = Returns a.

(** [SMTP_PORT] is unset, empty, or a literal [int] accepts. *)
Definition port_ok (env : gmap string string) : Prop :=
  match env !! "SMTP_PORT" with
  | Some s => s = "" ∨ ∃ n, py_int s = Returns n
  | None => True
  end.

(** ** Concrete inputs used to exercise the definitions *)

Module Fixtures.

(** Stands in for [urljoin] on a fake page: a listing is named by what
    follows [/jobs/] in its [href]. *)
Definition fake_urljoin (base href : string) : string :=
  default href (after_prefix "/jobs/" href).

(** A listing whose link is [name] and whose updated token is [stamp]. *)
Definition listing (name stamp : string) : anchor :=
  Anchor name (Some ("/jobs/" +:+ name)) [] []
         ["Updated: " +:+ stamp +:+ " Updated: 2025-09-24T09:59:00Z"].

Definition two_listings : html := [listing "A" "t1"; listing "B" "t2"].

(** The first page holds the two listings, the second cannot be fetched,
    and no notification goes through. *)
Definition fake_net : network :=
  Network (λ url, if decide (url = BASE_URL) then Some two_listings else None)
          (λ _ _ _, false) (λ _ _ _ _ _ _ _, false).

Definition fresh : state := State ∅ None [].

(** No channel configured, and a port that is not a number. *)
Definition bad_port_env : gmap string string := {[ "SMTP_PORT" := "abc" ]}.

(** Both channels configured, and a port that is not a number. *)
Definition full_bad_port_env : gmap string string :=
  {[ "TELEGRAM_BOT_TOKEN" := "123:token"; "TELEGRAM_CHAT_ID" := "42";
     "SMTP_HOST" := "smtp.example.org"; "SMTP_USER" := "watcher";
     "SMTP_PASS" := "secret"; "ALERT_EMAIL" := "me@example.org";
     "SMTP_PORT" := "abc" ]}.

(** A state in which the first listing has been seen and saved. *)
Definition seen_a : state :=
  State {[ "A::t1" ]} (Some (Document (JArr [JStr "A::t1"]))) [].

Definition job_a : job := Job "A::t1" "A" "" "A" "t1".
Definition job_b : job := Job "B::t2" "B" "" "B" "t2".

(** Two records with neither organisation nor time stamp. *)
Definition bare_1 : job := Job "https://x/jobs/1::" "Driver" "" "https://x/jobs/1" "".
Definition bare_2 : job := Job "https://x/jobs/2::" "Nurse" "" "https://x/jobs/2" "".

End Fixtures.

(** ** Loop mode (lines 143-145)

    The first [n] rounds of [while True: seen = check_once(seen);
    time.sleep(30 * 60)]; an exception that leaves [check_once] leaves the
    loop. *)
Fixpoint loop_cycles (urljoin : string → string → string)
    (env : gmap string string) (net : network) (n : nat) : M unit :=
  match n with
  | O => mret ()
  | S n' =>
      check_once urljoin env net;;
      emit (Sleep (30 * 60));;
      loop_cycles urljoin env net n'
  end.

(** ** Further predicates used in the statements *)

(** Some character of [s] is white space. *)
Fixpoint has_space (s : string) : bool :=
  match s with
  | EmptyString => false
  | String c r => py_isspace c || has_space r
  end.

(** The record lines 33-57 build from the anchor [a]. *)
Definition built_from (urljoin : string → string → string) (base : string)
    (a : anchor) (j : job) : Prop :=
  title j = a_text a
  ∧ link j = urljoin base (default "" (a_href a))
  ∧ org j = org_walk 6 (a_parent_next_siblings a) (a_next_siblings a)
  ∧ updated_of (find_next_updated a) = Returns (updated j)
  ∧ id j = link j +:+ "::" +:+ updated j.

(** What one page adds to [found] in the loop of lines 108-115: its parsed
    records, or nothing when the GET or the parse raises. *)
Definition page_jobs (urljoin : string → string → string) (net : network)
    (p : nat) : list job :=
  match http_get net (page_url p) with
  | Some page =>
      match parse_jobs urljoin page BASE_URL with
      | Returns jobs => jobs
      | Raises _ => []
      end
  | None => []
  end.

(** What one iteration of that loop does: the GET, then the pause after a
    page that was fetched and parsed, or the log entry of the handler. *)
Definition page_events (urljoin : string → string → string) (net : network)
    (p : nat) : list event :=
  Get (page_url p) ::
  match http_get net (page_url p) with
  | Some page =>
      match parse_jobs urljoin page BASE_URL with
      | Returns _ => [Sleep 1]
      | Raises _ => [LogException "Fetch/parse error"]
      end
  | None => [LogException "Fetch/parse error"]
  end.

(** What one cycle gathers and does in lines 107-115, over the pages
    [1..PAGES_TO_CHECK]. *)
Definition gathered (urljoin : string → string → string) (net : network)
  : list job :=
  seq 1 PAGES_TO_CHECK ≫= page_jobs urljoin net.

Definition gather_events (urljoin : string → string → string) (net : network)
  : list event :=
  seq 1 PAGES_TO_CHECK ≫= page_events urljoin net.

(** An event that reaches outside the process other than by a GET: a
    notification request or a write of the seen file. *)
Definition is_outward (e : event) : bool :=
  match e with
  | TelegramPost _ _ _ | SmtpSend _ _ _ _ _ _ _ | WriteSeen _ => true
  | _ => false
  end.

(** The URLs of the GET requests among the events, in order. *)
Definition requested_urls (evs : list event) : list string :=
  omap (λ e, match e with Get url => Some url | _ => None end) evs.

(** The seen file holds exactly what the set object holds: loading it
    gives the set back. *)
Definition in_sync (st : state) : Prop :=
  (load_seen st).1 = Returns (StrSet (seen_set st)).

(** The port [send_email] connects to: [int(os.getenv("SMTP_PORT") or 587)]
    when the conversion succeeds. *)
Definition smtp_port (env : gmap string string) : option Z :=
  match env !! "SMTP_PORT" with
  | Some s => if decide (s = "") then Some 587%Z
              else match py_int s with Returns p => Some p | Raises _ => None end
  | None => Some 587%Z
  end.

(** Both Telegram variables are set and non-empty. *)
Definition telegram_configured (env : gmap string string) : bool :=
  env_truthy (env !! "TELEGRAM_BOT_TOKEN") && env_truthy (env !! "TELEGRAM_CHAT_ID").

(** The four SMTP variables are set and non-empty. *)
Definition email_configured (env : gmap string string) : bool :=
  env_truthy (env !! "SMTP_HOST") && env_truthy (env !! "SMTP_USER")
  && env_truthy (env !! "SMTP_PASS") && env_truthy (env !! "ALERT_EMAIL").

(** The URL line 65 builds. *)
Definition telegram_url (env : gmap string string) : string :=
  "https://api.telegram.org/bot" +:+ default "" (env !! "TELEGRAM_BOT_TOKEN")
  +:+ "/sendMessage".

(** * Properties *)

(** ** The differ *)

Lemma uniq_loop_acc found uniq acc :
  uniq_loop found uniq acc = acc ++ uniq_loop found uniq [].
Proof.
  revert uniq acc. induction found as [|j rest IH]; intros uniq acc; simpl.
  - by rewrite app_nil_r.
  - destruct (decide (id j ∈ uniq)); [apply IH|].
    rewrite (IH _ (acc ++ [j])), (IH _ ([] ++ [j])). by rewrite <- app_assoc.
Qed.

Lemma uniq_loop_cons j rest uniq :
  uniq_loop (j :: rest) uniq [] =
    if decide (id j ∈ uniq) then uniq_loop rest uniq []
    else j :: uniq_loop rest ({[ id j ]} ∪ uniq) [].
Proof.
  simpl. destruct (decide (id j ∈ uniq)); [done|].
  by rewrite uniq_loop_acc.
Qed.

Lemma uniq_loop_sublist found uniq : uniq_loop found uniq [] `sublist_of` found.
Proof.
  revert uniq. induction found as [|j rest IH]; intros uniq; [done|].
  rewrite uniq_loop_cons. destruct (decide (id j ∈ uniq)).
  - by apply sublist_cons.
  - by apply sublist_skip.
Qed.

Lemma uniq_loop_fresh found uniq j :
  j ∈ uniq_loop found uniq [] → id j ∉ uniq.
Proof.
  revert uniq. induction found as [|k rest IH]; intros uniq; [by intros ?%elem_of_nil|].
  rewrite uniq_loop_cons. destruct (decide (id k ∈ uniq)); [by apply IH|].
  intros [->|Hin]%elem_of_cons; [done|]. apply IH in Hin. set_solver.
Qed.

Lemma uniq_loop_NoDup found uniq : NoDup (ids (uniq_loop found uniq [])).
Proof.
  revert uniq. induction found as [|k rest IH]; intros uniq; [constructor|].
  rewrite uniq_loop_cons. destruct (decide (id k ∈ uniq)); [apply IH|].
  unfold ids. rewrite fmap_cons. constructor; [|apply IH].
  intros (j & Hid & Hin)%list_elem_of_fmap.
  apply uniq_loop_fresh in Hin. set_solver.
Qed.

Lemma uniq_loop_covers found uniq j :
  j ∈ found → id j ∉ uniq → id j ∈ ids (uniq_loop found uniq []).
Proof.
  revert uniq. induction found as [|k rest IH]; intros uniq; [by intros ?%elem_of_nil|].
  rewrite uniq_loop_cons. intros Hin Hfresh.
  destruct (decide (id k ∈ uniq)) as [Hk|Hk].
  - apply elem_of_cons in Hin. destruct Hin as [->|Hin]; [done|]. by apply IH.
  - unfold ids. rewrite fmap_cons.
    destruct (decide (id j = id k)) as [->|Hne]; [by left|].
    right. apply elem_of_cons in Hin. destruct Hin as [->|Hin]; [done|].
    apply IH; [done|]. set_solver.
Qed.

(** Each retained record is the first one of the input with its [id]. *)
Lemma uniq_loop_first found uniq j :
  j ∈ uniq_loop found uniq [] →
  ∃ pre post, found = pre ++ j :: post ∧ id j ∉ ids pre.
Proof.
  revert uniq. induction found as [|k rest IH]; intros uniq; [by intros ?%elem_of_nil|].
  rewrite uniq_loop_cons. destruct (decide (id k ∈ uniq)) as [Hk|Hk].
  - intros Hin. pose proof (uniq_loop_fresh _ _ _ Hin) as Hfresh.
    destruct (IH _ Hin) as (pre & post & -> & Hpre).
    exists (k :: pre), post. split; [done|].
    unfold ids in *. rewrite fmap_cons, not_elem_of_cons. split; [congruence|done].
  - intros [->|Hin]%elem_of_cons.
    + exists [], rest. split; [done|]. by intros ?%elem_of_nil.
    + pose proof (uniq_loop_fresh _ _ _ Hin) as Hfresh.
      destruct (IH _ Hin) as (pre & post & -> & Hpre).
      exists (k :: pre), post. split; [done|].
      unfold ids in *. rewrite fmap_cons, not_elem_of_cons. split; [set_solver|done].
Qed.

Lemma uniq_loop_union x found uniq :
  uniq_loop found ({[ x ]} ∪ uniq) [] =
    filter (λ k, id k ≠ x) (uniq_loop found uniq []).
Proof.
  revert uniq. induction found as [|j rest IH]; intros uniq; [done|].
  rewrite !uniq_loop_cons.
  destruct (decide (id j ∈ uniq)) as [Hj|Hj].
  - rewrite decide_True by set_solver. apply IH.
  - destruct (decide (id j = x)) as [<-|Hne].
    + rewrite decide_True by set_solver.
      rewrite filter_cons_False by (by intros []).
      rewrite <- IH. f_equal. set_solver.
    + rewrite decide_False by set_solver.
      rewrite filter_cons_True by done. f_equal.
      rewrite <- IH. f_equal. set_solver.
Qed.

Lemma unique_jobs_spec_first_per_id found : unique_jobs found = spec_first_per_id found.
Proof.
  unfold unique_jobs. induction found as [|j rest IH]; [done|].
  rewrite uniq_loop_cons, decide_False by set_solver. simpl. f_equal.
  by rewrite uniq_loop_union, IH.
Qed.

Lemma uniq_loop_retains pre a post uniq :
  id a ∉ uniq → id a ∉ ids pre → a ∈ uniq_loop (pre ++ a :: post) uniq [].
Proof.
  revert uniq. induction pre as [|k pre IH]; intros uniq Hu Hpre; simpl app.
  - rewrite uniq_loop_cons, decide_False by done. by left.
  - unfold ids in Hpre. rewrite fmap_cons, not_elem_of_cons in Hpre.
    destruct Hpre as [Hne Hpre]. rewrite uniq_loop_cons.
    destruct (decide (id k ∈ uniq)); [by apply IH|].
    right. apply IH; [set_solver|done].
Qed.

Lemma NoDup_ids_eq (l : list job) a b :
  NoDup (ids l) → a ∈ l → b ∈ l → id a = id b → a = b.
Proof.
  induction l as [|x l IH]; [by intros _ ?%elem_of_nil|].
  unfold ids. rewrite fmap_cons, NoDup_cons.
  intros [Hx Hnd] Ha Hb Heq.
  apply elem_of_cons in Ha, Hb.
  destruct Ha as [->|Ha], Hb as [->|Hb]; [done| | |by apply IH].
  - exfalso. apply Hx. rewrite Heq. by apply list_elem_of_fmap_2.
  - exfalso. apply Hx. rewrite <- Heq. by apply list_elem_of_fmap_2.
Qed.

(** C3: the dedup loop of [check_once] keeps, in input order, exactly the
    first record of each distinct [id]: it computes [spec_first_per_id], its
    output is a sublist of the input with pairwise distinct ids covering
    every id of the input, every retained record has no earlier record with
    its id, and of two records with the same id and different titles only
    the first-encountered one is retained. *)
Theorem unique_jobs_keeps_first (found : list job) :
  unique_jobs found = spec_first_per_id found
  ∧ unique_jobs found `sublist_of` found
  ∧ NoDup (ids (unique_jobs found))
  ∧ (∀ j, j ∈ found → id j ∈ ids (unique_jobs found))
  ∧ (∀ j, j ∈ unique_jobs found →
       ∃ pre post, found = pre ++ j :: post ∧ id j ∉ ids pre)
  ∧ (∀ pre a mid b post,
       found = pre ++ a :: mid ++ b :: post →
       id a ∉ ids pre → id a = id b → title a ≠ title b →
       a ∈ unique_jobs found ∧ b ∉ unique_jobs found).
Proof.
  split; [apply unique_jobs_spec_first_per_id|].
  split; [apply uniq_loop_sublist|].
  split; [apply uniq_loop_NoDup|].
  split; [intros j Hj; apply uniq_loop_covers; [done|set_solver]|].
  split; [intros j; apply uniq_loop_first|].
  intros pre a mid b post -> Hpre Hid Htitle.
  assert (a ∈ unique_jobs (pre ++ a :: mid ++ b :: post)) as Ha.
  { apply uniq_loop_retains; [set_solver|done]. }
  split; [done|]. intros Hb.
  apply Htitle. f_equal.
  eapply NoDup_ids_eq; [apply uniq_loop_NoDup|exact Ha|exact Hb|done].
Qed.

Lemma unique_jobs_keeps_first_witness :
  let a := Job "L::t" "first" "" "L" "t" in
  let b := Job "L::t" "second" "" "L" "t" in
  unique_jobs [a; b] = [a] ∧ a ∈ unique_jobs [a; b] ∧ b ∉ unique_jobs [a; b].
Proof.
  intros a b. split; [reflexivity|].
  destruct (unique_jobs_keeps_first [a; b]) as (_ & _ & _ & _ & _ & H).
  apply (H [] a [] b []); [reflexivity| |reflexivity|discriminate].
  intros ?%elem_of_nil. done.
Defined.

Lemma differ_not_seen (seen : gset string) (found : list job) :
  Forall (λ j, id j ∉ seen) (differ seen found).
Proof.
  apply Forall_forall. unfold differ, new_jobs.
  by intros j [Hj _]%list_elem_of_filter.
Qed.

(** C10: the new sequence the differ produces has pairwise distinct ids,
    consists of records of the input list, and has no id in the seen set it
    was computed against. *)
Theorem differ_sound (seen : gset string) (found : list job) :
  NoDup (ids (differ seen found))
  ∧ Forall (λ j, j ∈ found) (differ seen found)
  ∧ Forall (λ j, id j ∉ seen) (differ seen found).
Proof.
  unfold differ, new_jobs. split; [|split].
  - eapply sublist_NoDup; [apply (uniq_loop_NoDup found ∅)|].
    apply fmap_sublist, sublist_filter.
  - apply Forall_forall. intros j [_ Hj]%list_elem_of_filter.
    eapply elem_of_sublist; [exact Hj|apply uniq_loop_sublist].
  - apply differ_not_seen.
Qed.

Lemma differ_sound_witness :
  let found := [Fixtures.job_a; Fixtures.job_b; Fixtures.job_a] in
  differ {[ "A::t1" ]} found = [Fixtures.job_b]
  ∧ NoDup (ids (differ {[ "A::t1" ]} found))
  ∧ Forall (λ j, id j ∉ ({[ "A::t1" ]} : gset string)) (differ {[ "A::t1" ]} found).
Proof.
  intros found.
  destruct (differ_sound {[ "A::t1" ]} found) as (Hnodup & _ & Hfresh).
  split; [vm_compute; reflexivity|]. split; [exact Hnodup|exact Hfresh].
Defined.

Lemma new_jobs_nil (seen : gset string) l :
  (∀ j, j ∈ l → id j ∈ seen) → new_jobs seen l = [].
Proof.
  unfold new_jobs. induction l as [|j l IH]; intros Hall; [done|].
  rewrite filter_cons_False.
  - apply IH. intros k Hk. apply Hall. by right.
  - intros Hj. apply Hj, Hall. by left.
Qed.

Lemma new_jobs_after_update seen l :
  new_jobs (seen_update seen (new_jobs seen l)) l = [].
Proof.
  apply new_jobs_nil. intros j Hj. unfold seen_update.
  destruct (decide (id j ∈ seen)) as [Hseen|Hseen]; [by apply elem_of_union_l|].
  apply elem_of_union_r, elem_of_list_to_set, list_elem_of_fmap_2.
  by apply list_elem_of_filter.
Qed.

(** C2: for a deduplicated record list and a seen set, two applications of
    the novelty filter against the unmodified set return the same sequence,
    filtering that sequence again changes nothing, and once its ids have
    been added to the set the filter returns the empty sequence on the same
    input. *)
Theorem novelty_filter_idempotent (seen : gset string) (found : list job) :
  let uniq := unique_jobs found in
  let first := new_jobs seen uniq in
  let second := new_jobs seen uniq in
  first = second
  ∧ new_jobs seen first = first
  ∧ new_jobs (seen_update seen first) uniq = [].
Proof.
  intros uniq first second. split; [reflexivity|]. split.
  - unfold first, new_jobs. by apply list_filter_filter_l.
  - apply new_jobs_after_update.
Qed.

Lemma novelty_filter_idempotent_witness :
  let found := [Fixtures.job_a; Fixtures.job_b; Fixtures.job_a] in
  new_jobs {[ "A::t1" ]} (unique_jobs found) = [Fixtures.job_b]
  ∧ new_jobs (seen_update {[ "A::t1" ]} [Fixtures.job_b]) (unique_jobs found) = [].
Proof.
  intros found.
  destruct (novelty_filter_idempotent {[ "A::t1" ]} found) as (_ & _ & Hempty).
  assert (new_jobs {[ "A::t1" ]} (unique_jobs found) = [Fixtures.job_b]) as Hnew
    by (vm_compute; reflexivity).
  rewrite Hnew in Hempty. split; [reflexivity|exact Hempty].
Defined.

(** ** The parser *)

Lemma isdigit_not_isspace c : py_isdigit c = true → py_isspace c = false.
Proof. by destruct c as [[] [] [] [] [] [] [] []]. Qed.

Lemma digits_head n s r :
  digits (S n) s = Some r → ∃ c s', s = String c s' ∧ py_isdigit c = true.
Proof.
  destruct s as [|c s']; simpl; [done|].
  destruct (py_isdigit c) eqn:Hc; [|done]. eauto.
Qed.

(** Where the stamp pattern matches, so does the token pattern. *)
Lemma stamp_at_token_at s :
  is_Some (re_updated_stamp_at s) → is_Some (re_updated_token_at s).
Proof.
  unfold re_updated_stamp_at, re_updated_token_at. intros [[] Hm].
  apply bind_Some in Hm as (r & -> & Hm).
  apply bind_Some in Hm as (r1 & Hd & _).
  apply digits_head in Hd as (c & s' & Hr & Hc).
  cbn. rewrite Hr. simpl. rewrite (isdigit_not_isspace c Hc).
  rewrite decide_False by done. eauto.
Qed.

Lemma re_search_mono {A B} (p : string → option A) (q : string → option B) s :
  (∀ t, is_Some (p t) → is_Some (q t)) →
  is_Some (re_search p s) → is_Some (re_search q s).
Proof.
  intros Hpq. induction s as [|c s IH]; simpl.
  - destruct (p "") eqn:Hp; [|by intros [? ?]].
    destruct (Hpq "") as [m ->]; eauto.
  - destruct (p (String c s)) eqn:Hp.
    + destruct (Hpq (String c s)) as [m ->]; eauto.
    + intros Hs. destruct (q (String c s)); eauto.
Qed.

(** Line 54 never meets [None]: the string [find_next] returns contains a
    match of the token pattern. *)
Lemma updated_of_returns a : ∃ u, updated_of (find_next_updated a) = Returns u.
Proof.
  unfold updated_of, find_next_updated.
  destruct (List.find _ _) as [s|] eqn:Hfind; [|eauto].
  apply find_some in Hfind as [_ Hs%bool_decide_eq_true].
  destruct (decide (s = "")); [eauto|].
  destruct (re_search_mono _ re_updated_token_at s stamp_at_token_at Hs)
    as [tok ->]; eauto.
Qed.

Lemma parse_loop_ids urljoin base anchors jobs seen_links :
  Forall id_from_link jobs →
  ∃ jobs', parse_loop urljoin base anchors jobs seen_links = Returns jobs'
           ∧ Forall id_from_link jobs'.
Proof.
  revert jobs seen_links.
  induction anchors as [|a rest IH]; intros jobs seen_links Hjobs; simpl; [eauto|].
  destruct (_ || _); [by apply IH|].
  destruct (updated_of_returns a) as [u ->].
  apply IH, Forall_app. split; [done|]. by repeat constructor.
Qed.

(** C4: [parse_jobs] returns, and every record it returns has as [id] its
    absolute link, then the separator [::], then its updated string, also
    when that string is empty; a record with link [https://x/jobs/1] and an
    empty updated string has id [https://x/jobs/1::]. *)
Theorem parse_jobs_id (urljoin : string → string → string)
    (page : html) (base : string) :
  ∃ jobs, parse_jobs urljoin page base = Returns jobs
    ∧ Forall (λ j, id j = link j +:+ "::" +:+ updated j) jobs
    ∧ Forall (λ j, link j = "https://x/jobs/1" → updated j = "" →
                   id j = "https://x/jobs/1::") jobs.
Proof.
  destruct (parse_loop_ids urljoin base (find_all_jobs page) [] ∅)
    as (jobs & Hrun & Hids); [constructor|].
  exists jobs. split; [exact Hrun|]. split; [exact Hids|].
  eapply Forall_impl; [exact Hids|].
  intros j Hj Hlink Hupd. rewrite Hj, Hlink, Hupd. reflexivity.
Qed.

(** A page with one listing whose [href] is already absolute (so that
    [urljoin] returns it as it is) and no time stamp after it. *)
Lemma parse_jobs_id_witness :
  let page := [Anchor "Officer" (Some "https://x/jobs/1") [] [] []] in
  ∃ jobs, parse_jobs (λ _ href, href) page BASE_URL = Returns jobs
    ∧ jobs = [Job "https://x/jobs/1::" "Officer" "" "https://x/jobs/1" ""].
Proof.
  intros page.
  destruct (parse_jobs_id (λ _ href, href) page BASE_URL) as (jobs & Hrun & _).
  exists jobs. split; [exact Hrun|].
  vm_compute in Hrun. by injection Hrun as <-.
Defined.

(** ** The message *)

Lemma kept_job_lines j :
  filter (λ x, x ≠ "") (job_lines j) =
    ["<b>" +:+ title j +:+ "</b>"]
    ++ (if decide (org j = "") then [] else [org j])
    ++ (if decide (link j = "") then [] else [link j])
    ++ (if decide (updated j = "") then [] else ["Updated: " +:+ updated j]).
Proof.
  destruct j as [i t o l u]. unfold job_lines. simpl.
  rewrite !filter_cons, filter_nil.
  destruct (decide (o = "")), (decide (l = "")), (decide (u = ""));
    repeat case_decide; simplify_eq/=; done.
Qed.

(** C5 (the code departs from it): the message of two records without
    organisation and time stamp is their title and link lines and nothing
    else.  Line 101 drops every empty entry of [lines], the separator entry
    that line 100 appends after each record included, so no blank line
    separates the records and none follows the last. *)
Theorem alert_message_has_no_separator :
  alert_lines [Fixtures.bare_1; Fixtures.bare_2] =
    [ "<b>Driver</b>"; ""; "https://x/jobs/1"; ""; "";
      "<b>Nurse</b>"; ""; "https://x/jobs/2"; ""; "" ]
  ∧ alert_message [Fixtures.bare_1; Fixtures.bare_2] =
      str_join NL ["<b>Driver</b>"; "https://x/jobs/1";
                   "<b>Nurse</b>"; "https://x/jobs/2"]
  ∧ alert_message [Fixtures.bare_1] = str_join NL ["<b>Driver</b>"; "https://x/jobs/1"]
  ∧ ∀ new, "" ∉ filter (λ x, x ≠ "") (alert_lines new).
Proof.
  repeat split; try reflexivity.
  intros new [Hne _]%list_elem_of_filter. done.
Qed.

Lemma alert_message_has_no_separator_witness :
  alert_message [Fixtures.bare_1] = str_join NL ["<b>Driver</b>"; "https://x/jobs/1"]
  ∧ "" ∉ filter (λ x, x ≠ "") (alert_lines [Fixtures.bare_1; Fixtures.bare_2]).
Proof.
  destruct alert_message_has_no_separator as (_ & _ & Hone & Hnone).
  split; [exact Hone|apply Hnone].
Defined.

(** What does hold of the message: each record contributes its bolded
    title, then its organisation, link and updated line when non-empty. *)
Lemma alert_message_lines new :
  alert_message new =
    str_join NL (new ≫= λ j, filter (λ x, x ≠ "") (job_lines j)).
Proof.
  unfold alert_message, alert_lines. f_equal.
  induction new as [|j new IH]; [done|].
  cbn [mbind list_bind]. by rewrite filter_app, IH.
Qed.

(** ** How the effects compose *)

Lemma bind_run {A B} (m : M A) (f : A → M B) st :
  (m ≫= f) st =
    match m st with
    | (Returns a, st') => f a st'
    | (Raises e, st') => (Raises e, st')
    end.
Proof. reflexivity. Qed.

Lemma keeps_store_ret {A} (a : A) : keeps_store (mret a).
Proof. by intros st. Qed.

Lemma keeps_store_raise {A} e : keeps_store (@raise A e).
Proof. by intros st. Qed.

Lemma keeps_store_lift {A} (o : outcome A) : keeps_store (lift o).
Proof. by intros st. Qed.

Lemma keeps_store_emit e : keeps_store (emit e).
Proof. by intros st. Qed.

Lemma keeps_store_get_seen : keeps_store get_seen.
Proof. by intros st. Qed.

Lemma keeps_store_bind {A B} (m : M A) (f : A → M B) :
  keeps_store m → (∀ a, keeps_store (f a)) → keeps_store (m ≫= f).
Proof.
  intros Hm Hf st. rewrite bind_run. specialize (Hm st).
  destruct (m st) as [[a|e] st']; simpl in *; [|done].
  destruct (Hf a st') as [-> ->]. done.
Qed.

Lemma keeps_store_try {A} (body handler : M A) :
  keeps_store body → keeps_store handler → keeps_store (try_except body handler).
Proof.
  intros Hb Hh st. unfold try_except. specialize (Hb st).
  destruct (body st) as [[a|e] st']; simpl in *; [done|].
  destruct (Hh st') as [-> ->]. done.
Qed.

Create HintDb store discriminated.
#[local] Hint Resolve keeps_store_ret keeps_store_raise keeps_store_lift
  keeps_store_emit keeps_store_get_seen keeps_store_bind keeps_store_try : store.

Lemma returns_ret {A} (a : A) : returns (mret a).
Proof. intros st. by exists a. Qed.

Lemma returns_emit e : returns (emit e).
Proof. intros st. by exists (). Qed.

Lemma returns_bind {A B} (m : M A) (f : A → M B) :
  returns m → (∀ a, returns (f a)) → returns (m ≫= f).
Proof.
  intros Hm Hf st. rewrite bind_run. destruct (Hm st) as [a Ha].
  destruct (m st) as [o st']; simpl in Ha; subst o. apply Hf.
Qed.

Lemma returns_try {A} (body handler : M A) :
  returns handler → returns (try_except body handler).
Proof.
  intros Hh st. unfold try_except.
  destruct (body st) as [[a|e] st']; [by exists a|apply Hh].
Qed.

#[local] Hint Resolve returns_ret returns_emit returns_bind returns_try : store.

Section WatcherFacts.

Variable urljoin : string → string → string.
Variable env : gmap string string.
Variable net : network.

Lemma keeps_store_fetch url : keeps_store (fetch net url).
Proof. unfold fetch. destruct (http_get net url); auto 6 with store. Qed.

Lemma keeps_store_send_telegram msg : keeps_store (send_telegram env net msg).
Proof.
  unfold send_telegram, requests_post.
  destruct (negb _); [auto with store|].
  apply keeps_store_try; [|auto with store].
  apply keeps_store_bind; [|auto with store].
  apply keeps_store_bind; [auto with store|].
  intros _. destruct (telegram_ok _ _ _ _); auto with store.
Qed.

Lemma keeps_store_send_email subject body :
  keeps_store (send_email env net subject body).
Proof.
  unfold send_email, smtp_session.
  apply keeps_store_bind.
  { destruct (getenv env "SMTP_PORT") as [s|]; [|auto with store].
    destruct (decide (s = "")); auto with store. }
  intros port. destruct (negb _); [auto with store|].
  apply keeps_store_try; [|auto with store].
  apply keeps_store_bind; [|auto with store].
  apply keeps_store_bind; [auto with store|].
  intros _. destruct (smtp_ok _ _ _ _ _ _ _ _); auto with store.
Qed.

Lemma keeps_store_alert new : keeps_store (alert env net new).
Proof.
  destruct new as [|j new]; [apply keeps_store_ret|].
  unfold alert. apply keeps_store_bind; [apply keeps_store_send_telegram|].
  intros [|]; simpl; [auto with store|].
  apply keeps_store_bind; [apply keeps_store_send_email|auto with store].
Qed.

Lemma keeps_store_fetch_pages pages found :
  keeps_store (fetch_pages urljoin net pages found).
Proof.
  revert found. induction pages as [|p rest IH]; intros found; simpl.
  - apply keeps_store_ret.
  - apply keeps_store_bind; [|intros; apply IH].
    apply keeps_store_try; [|auto with store].
    apply keeps_store_bind; [apply keeps_store_fetch|].
    intros page. auto 7 with store.
Qed.

(** A failing page never aborts the cycle: the page loop always returns. *)
Lemma returns_fetch_pages pages found :
  returns (fetch_pages urljoin net pages found).
Proof.
  revert found. induction pages as [|p rest IH]; intros found; simpl.
  - apply returns_ret.
  - apply returns_bind; [|intros; apply IH].
    apply returns_try. auto with store.
Qed.

End WatcherFacts.

Lemma save_seen_run seen st :
  save_seen seen st =
    (Returns (), State (seen_set st) (Some (dump_sorted seen))
                       (journal st ++ [WriteSeen (dump_sorted seen)])).
Proof. reflexivity. Qed.

Lemma get_seen_run st : get_seen st = (Returns (seen_set st), st).
Proof. reflexivity. Qed.

Lemma set_seen_run s st :
  set_seen s st = (Returns (), State s (seen_file st) (journal st)).
Proof. reflexivity. Qed.

Lemma emit_run e st :
  emit e st = (Returns (), State (seen_set st) (seen_file st) (journal st ++ [e])).
Proof. reflexivity. Qed.

(** ** The seen store *)

(** C8, as stated, fails: a seen file holding a JSON object is not a list
    of strings, and [load_seen] returns the set of its keys. *)
Lemma load_seen_accepts_object :
  ¬ (∀ st c, seen_file st = Some c →
             (¬ ∃ l : list string, c = Document (JArr (JStr <$> l))) →
             ∃ e, (load_seen st).1 = Raises e).
Proof.
  intros Hclaim.
  destruct (Hclaim (State ∅ (Some (Document (JObj [("k", JNull)]))) [])
                   (Document (JObj [("k", JNull)])) eq_refl) as [e He].
  - intros [l Hl]. discriminate Hl.
  - discriminate He.
Qed.

Lemma forallb_hashable_false pre x post :
  hashable x = false → forallb hashable (pre ++ x :: post) = false.
Proof.
  intros Hx. rewrite forallb_app. simpl. rewrite Hx.
  by rewrite andb_false_r.
Qed.

Lemma mapM_as_str (l : list string) : mapM as_str (JStr <$> l) = Some l.
Proof. apply mapM_Some, Forall2_fmap_l, Forall2_same_length_lookup_2; [done|].
  intros i x y Hx Hy. simplify_eq. done. Qed.

(** C8 (amended): loading with no seen file returns the empty set; loading
    raises, and [load_seen] lets the error through, when the file does not
    decode as JSON, when it decodes to null, a boolean or a number, and
    when it decodes to an array with an array or an object among its
    elements.  Other content loads without an error: an array of strings as
    the set of those strings, a JSON string as the set of its characters,
    an object as the set of its keys, and any array of scalars.  Loading
    never changes the state. *)
Theorem load_seen_outcomes (seen : gset string) (log : list event) :
  let load f := load_seen (State seen f log) in
  (∀ f, (load f).2 = State seen f log)
  ∧ (load None).1 = Returns (StrSet ∅)
  ∧ (load (Some Undecodable)).1 = Raises JSONDecodeError
  ∧ (load (Some (Document JNull))).1 = Raises TypeError
  ∧ (∀ b, (load (Some (Document (JBool b)))).1 = Raises TypeError)
  ∧ (∀ n, (load (Some (Document (JNum n)))).1 = Raises TypeError)
  ∧ (∀ pre inner post,
       (load (Some (Document (JArr (pre ++ JArr inner :: post))))).1
       = Raises TypeError)
  ∧ (∀ pre inner post,
       (load (Some (Document (JArr (pre ++ JObj inner :: post))))).1
       = Raises TypeError)
  ∧ (∀ l : list string,
       (load (Some (Document (JArr (JStr <$> l))))).1
       = Returns (StrSet (list_to_set l)))
  ∧ (∀ s, (load (Some (Document (JStr s)))).1
          = Returns (StrSet (list_to_set (chars s))))
  ∧ (∀ members, (load (Some (Document (JObj members)))).1
                = Returns (StrSet (list_to_set members.*1)))
  ∧ (∀ items, forallb hashable items = true →
       ∃ s, (load (Some (Document (JArr items)))).1 = Returns s).
Proof.
  intros load. repeat split; try reflexivity.
  - intros [[|v]|]; [reflexivity| |reflexivity].
    unfold load, load_seen. rewrite bind_run. reflexivity.
  - intros pre inner post. unfold load, load_seen. rewrite bind_run. simpl.
    unfold lift, py_set. by rewrite forallb_hashable_false.
  - intros pre inner post. unfold load, load_seen. rewrite bind_run. simpl.
    unfold lift, py_set. by rewrite forallb_hashable_false.
  - intros l. unfold load, load_seen. rewrite bind_run. simpl.
    unfold lift, py_set. rewrite mapM_as_str.
    assert (forallb hashable (JStr <$> l) = true) as ->; [|done].
    induction l; [done|]. done.
  - intros items Hh. unfold load, load_seen. rewrite bind_run. simpl.
    unfold lift, py_set. rewrite Hh. destruct (mapM as_str items); eauto.
Qed.

Lemma load_seen_outcomes_witness :
  ∃ s, (load_seen (State ∅ (Some (Document (JArr [JNum "1"; JStr "a"]))) [])).1
       = Returns s.
Proof.
  destruct (load_seen_outcomes ∅ []) as (_ & _ & _ & _ & _ & _ & _ & _ & _ & _ & _ & H).
  apply (H [JNum "1"; JStr "a"]). reflexivity.
Defined.

Lemma sorted_StronglySorted l : StronglySorted String.le (sorted l).
Proof. apply StronglySorted_merge_sort; apply _. Qed.

Lemma sorted_Permutation l : sorted l ≡ₚ l.
Proof. apply merge_sort_Permutation. Qed.

(** ** The notifier *)

(** [send_telegram] never raises. *)
Lemma returns_send_telegram env net msg : returns (send_telegram env net msg).
Proof.
  unfold send_telegram. destruct (negb _); [apply returns_ret|].
  apply returns_try. auto with store.
Qed.

(** Without a token or a chat id nothing is sent and the result is [False]. *)
Lemma send_telegram_unconfigured env net msg st :
  env_truthy (env !! "TELEGRAM_BOT_TOKEN") && env_truthy (env !! "TELEGRAM_CHAT_ID")
    = false →
  send_telegram env net msg st = (Returns false, st).
Proof. unfold send_telegram, getenv. by intros ->. Qed.

(** The order of the two channels: [send_email] runs exactly when
    [send_telegram] returned [False], and what it raises leaves [alert]. *)
Lemma alert_run env net j new st :
  alert env net (j :: new) st =
    let msg := alert_message (j :: new) in
    match send_telegram env net msg st with
    | (Returns true, st1) => (Returns (), st1)
    | (Returns false, st1) =>
        match send_email env net "New UNjobs - Bangladesh" msg st1 with
        | (Returns _, st2) => (Returns (), st2)
        | (Raises e, st2) => (Raises e, st2)
        end
    | (Raises e, st1) => (Raises e, st1)
    end.
Proof.
  unfold alert. rewrite bind_run. cbv zeta.
  destruct (send_telegram _ _ _ _) as [[[|]|e] st1]; simpl; [done| |done].
  rewrite bind_run. by destruct (send_email _ _ _ _ _) as [[b|e] st2].
Qed.

(** With a port that converts, neither channel lets an error through. *)
Lemma returns_send_email env net subject body :
  port_ok env → returns (send_email env net subject body).
Proof.
  unfold port_ok, send_email, getenv. intros Hport.
  apply returns_bind.
  - destruct (env !! "SMTP_PORT") as [s|]; [|apply returns_ret].
    destruct (decide (s = "")) as [Hs|Hs]; [apply returns_ret|].
    destruct Hport as [?|[port Hport]]; [done|].
    rewrite Hport. intros st. by exists port.
  - intros port. destruct (negb _); [apply returns_ret|].
    apply returns_try. auto with store.
Qed.

Lemma returns_alert env net new : port_ok env → returns (alert env net new).
Proof.
  intros Hport. destruct new as [|j new]; [apply returns_ret|].
  unfold alert. apply returns_bind; [apply returns_send_telegram|].
  intros [|]; simpl; [apply returns_ret|].
  apply returns_bind; [by apply returns_send_email|auto with store].
Qed.

(** With both variables set, one POST is made; when it fails the failure
    is logged and the result is [False]. *)
Lemma send_telegram_configured env net msg st token chat :
  env !! "TELEGRAM_BOT_TOKEN" = Some token → token ≠ "" →
  env !! "TELEGRAM_CHAT_ID" = Some chat → chat ≠ "" →
  let url := "https://api.telegram.org/bot" +:+ token +:+ "/sendMessage" in
  send_telegram env net msg st =
    if telegram_ok net url chat msg
    then (Returns true,
          State (seen_set st) (seen_file st)
                (journal st ++ [TelegramPost url chat msg]))
    else (Returns false,
          State (seen_set st) (seen_file st)
                (journal st ++ [TelegramPost url chat msg;
                                LogException "Telegram failed"])).
Proof.
  intros Htok Htok_ne Hchat Hchat_ne url.
  unfold send_telegram, getenv. rewrite Htok, Hchat. unfold env_truthy.
  rewrite !bool_decide_eq_true_2 by done. simpl negb. cbv iota.
  unfold try_except, requests_post, mbind, M_bind, emit, mret, M_ret, raise.
  simpl. fold url.
  destruct (telegram_ok net url chat msg); simpl; [done|].
  by rewrite <- app_assoc.
Qed.

(** A port that [int] rejects makes [send_email] raise before anything
    else happens, whether or not the channel is configured. *)
Lemma send_email_malformed_port env net subject body st s e :
  env !! "SMTP_PORT" = Some s → s ≠ "" → py_int s = Raises e →
  send_email env net subject body st = (Raises e, st).
Proof.
  intros Hport Hne Hint. unfold send_email, getenv.
  rewrite bind_run, Hport, decide_False, Hint by done. reflexivity.
Qed.

Lemma alert_unconfigured_malformed_port env net j new st s e :
  env_truthy (env !! "TELEGRAM_BOT_TOKEN") && env_truthy (env !! "TELEGRAM_CHAT_ID")
    = false →
  env !! "SMTP_PORT" = Some s → s ≠ "" → py_int s = Raises e →
  alert env net (j :: new) st = (Raises e, st).
Proof.
  intros Htg Hport Hne Hint. rewrite alert_run. cbv zeta.
  rewrite send_telegram_unconfigured by done.
  by rewrite (send_email_malformed_port _ _ _ _ _ s e).
Qed.

(** C6 (the code departs from it): with no Telegram configuration and
    [SMTP_PORT] set to [abc], the email channel is invoked and its
    [int(..)] raises [ValueError], which [alert] passes on to its caller;
    the same happens when both channels are configured and the Telegram
    request fails. *)
Theorem alert_raises_on_malformed_port (net : network) (st : state)
    (j : job) (new : list job) :
  alert Fixtures.bad_port_env net (j :: new) st = (Raises ValueError, st)
  ∧ (telegram_ok net "https://api.telegram.org/bot123:token/sendMessage" "42"
                 (alert_message (j :: new)) = false →
     alert Fixtures.full_bad_port_env net (j :: new) st =
       (Raises ValueError,
        State (seen_set st) (seen_file st)
              (journal st ++
                 [TelegramPost "https://api.telegram.org/bot123:token/sendMessage"
                               "42" (alert_message (j :: new));
                  LogException "Telegram failed"]))).
Proof.
  split.
  - by apply (alert_unconfigured_malformed_port _ _ _ _ _ "abc").
  - intros Hdown. rewrite alert_run. cbv zeta.
    rewrite (send_telegram_configured _ _ _ _ "123:token" "42") by done.
    cbv zeta.
    change ("https://api.telegram.org/bot" +:+ "123:token" +:+ "/sendMessage")
      with "https://api.telegram.org/bot123:token/sendMessage".
    rewrite Hdown.
    by rewrite (send_email_malformed_port _ _ _ _ _ "abc" ValueError).
Qed.

Lemma alert_raises_on_malformed_port_witness :
  (alert Fixtures.full_bad_port_env Fixtures.fake_net [Fixtures.job_a] Fixtures.fresh).1
  = Raises ValueError.
Proof.
  destruct (alert_raises_on_malformed_port Fixtures.fake_net Fixtures.fresh
              Fixtures.job_a []) as [_ H].
  rewrite H; reflexivity.
Defined.

(** ** One cycle *)

(** What one cycle does once the pages are in: the two branches of
    [if new:]. *)
Lemma check_once_run urljoin env net st :
  ∃ found st1,
    fetch_pages urljoin net (seq 1 PAGES_TO_CHECK) [] st = (Returns found, st1)
    ∧ seen_set st1 = seen_set st ∧ seen_file st1 = seen_file st
    ∧ let new := differ (seen_set st) found in
      check_once urljoin env net st =
        match new with
        | [] => (Returns (seen_set st),
                 State (seen_set st) (seen_file st)
                       (journal st1 ++ [LogInfo "No new jobs."]))
        | _ :: _ =>
            let st2 := State (seen_set st) (seen_file st)
                         (journal st1 ++ [LogInfo ("New jobs: " +:+ pretty (length new))]) in
            match alert env net new st2 with
            | (Returns _, st3) =>
                let seen' := seen_update (seen_set st) new in
                (Returns seen',
                 State seen' (Some (dump_sorted seen'))
                       (journal st3 ++ [WriteSeen (dump_sorted seen')]))
            | (Raises e, st3) => (Raises e, st3)
            end
        end.
Proof.
  destruct (returns_fetch_pages urljoin net (seq 1 PAGES_TO_CHECK) [] st) as [found Hret].
  destruct (keeps_store_fetch_pages urljoin net (seq 1 PAGES_TO_CHECK) [] st) as [Hs Hf].
  destruct (fetch_pages urljoin net (seq 1 PAGES_TO_CHECK) [] st) as [o st1] eqn:Hrun.
  simpl in Hret, Hs, Hf. subst o.
  exists found, st1. split; [done|]. split; [done|]. split; [done|].
  intros new. unfold check_once. rewrite bind_run, Hrun.
  rewrite bind_run, get_seen_run, Hs.
  fold (differ (seen_set st) found). fold new.
  destruct new as [|j new'] eqn:Hnew.
  - rewrite bind_run, emit_run, get_seen_run. simpl. by rewrite Hs, Hf.
  - rewrite bind_run, emit_run, bind_run. simpl seen_set. simpl seen_file.
    simpl journal. rewrite Hs, Hf.
    pose proof (keeps_store_alert env net (j :: new')
      (State (seen_set st) (seen_file st)
         (journal st1 ++ [LogInfo ("New jobs: " +:+ pretty (length (j :: new')))]))) as [Hs3 Hf3].
    destruct (alert env net (j :: new') _) as [[[]|e] st3]; [|done].
    rewrite bind_run, set_seen_run, bind_run, get_seen_run, bind_run,
      save_seen_run, get_seen_run.
    reflexivity.
Qed.

(** Opens a cycle whose page loop is known to return [found]: the goal is
    rewritten to the two branches of [check_once_run], [st1] is the state
    the page loop leaves and [Hrun] its equation. *)
Ltac open_cycle env Hfetch st1 Hrun :=
  lazymatch type of Hfetch with
  | (fetch_pages ?u ?n _ _ ?st).1 = Returns _ =>
      let found' := fresh "found'" in
      let Heq := fresh "Heq" in
      destruct (check_once_run u env n st) as (found' & st1 & Hrun & _ & _ & Heq);
      rewrite Hrun in Hfetch; simpl in Hfetch; injection Hfetch as ->;
      cbv zeta in Heq; rewrite Heq; clear Heq
  end.

(** C9: the seen set only grows.  After one cycle of [check_once] (whether
    it returns or raises) the set object holds every entry it held before;
    the value returned is that object; neither the notifier nor [save_seen]
    changes the set; and [save_seen] writes the members of the set as a
    JSON array of strings in ascending order, each member once. *)
Theorem seen_set_only_grows (urljoin : string → string → string)
    (env : gmap string string) (net : network) (st : state)
    (new : list job) (seen : gset string) :
  seen_set st ⊆ seen_set (check_once urljoin env net st).2
  ∧ match (check_once urljoin env net st).1 with
    | Returns s => s = seen_set (check_once urljoin env net st).2
    | Raises _ => True
    end
  ∧ seen_set (alert env net new st).2 = seen_set st
  ∧ seen_set (save_seen seen st).2 = seen_set st
  ∧ seen ⊆ seen_update seen new
  ∧ ∃ l, seen_file (save_seen seen st).2 = Some (Document (JArr (JStr <$> l)))
         ∧ StronglySorted String.le l ∧ NoDup l ∧ ∀ x, x ∈ l ↔ x ∈ seen.
Proof.
  split; [|split]; [| |split; [|split; [|split]]].
  - destruct (check_once_run urljoin env net st) as (found & st1 & _ & _ & _ & ->).
    destruct (differ (seen_set st) found) as [|j new']; [done|]. cbv beta iota zeta.
    pose proof (keeps_store_alert env net (j :: new')
      (State (seen_set st) (seen_file st)
         (journal st1 ++ [LogInfo ("New jobs: " +:+ pretty (length (j :: new')))]))) as [Hs3 _].
    destruct (alert env net (j :: new') _) as [[[]|e] st3]; cbn [fst snd seen_set] in *.
    + unfold seen_update. apply union_subseteq_l.
    + by rewrite Hs3.
  - destruct (check_once_run urljoin env net st) as (found & st1 & _ & _ & _ & ->).
    destruct (differ (seen_set st) found) as [|j new']; [done|]. cbv beta iota zeta.
    by destruct (alert env net (j :: new') _) as [[[]|e] st3].
  - apply keeps_store_alert.
  - done.
  - unfold seen_update. apply union_subseteq_l.
  - exists (sorted (elements seen)). split; [done|].
    split; [apply sorted_StronglySorted|]. split.
    + rewrite sorted_Permutation. apply NoDup_elements.
    + intros x. rewrite sorted_Permutation. apply elem_of_elements.
Qed.

Lemma seen_set_only_grows_witness :
  let run := check_once Fixtures.fake_urljoin ∅ Fixtures.fake_net Fixtures.seen_a in
  seen_set Fixtures.seen_a ⊆ seen_set run.2
  ∧ seen_file run.2 = Some (Document (JArr [JStr "A::t1"; JStr "B::t2"])).
Proof.
  intros run.
  destruct (seen_set_only_grows Fixtures.fake_urljoin ∅ Fixtures.fake_net
              Fixtures.seen_a [] ∅) as (Hgrow & _).
  split; [exact Hgrow|]. vm_compute. reflexivity.
Defined.

Lemma uniq_loop_NoDup_id found uniq :
  NoDup (ids found) → (∀ x, x ∈ ids found → x ∉ uniq) →
  uniq_loop found uniq [] = found.
Proof.
  revert uniq. induction found as [|j rest IH]; intros uniq Hnd Hfresh; [done|].
  unfold ids in *. rewrite fmap_cons in Hnd, Hfresh. apply NoDup_cons in Hnd as [Hj Hnd].
  rewrite uniq_loop_cons, decide_False by (apply Hfresh; by left).
  f_equal. apply IH; [done|]. intros x Hx.
  rewrite not_elem_of_union, not_elem_of_singleton. split.
  - intros ->. done.
  - apply Hfresh. by right.
Qed.

Lemma differ_fresh found :
  NoDup (ids found) → differ ∅ found = found.
Proof.
  intros Hnd. unfold differ, unique_jobs.
  rewrite uniq_loop_NoDup_id by (done || intros; apply not_elem_of_empty).
  unfold new_jobs. induction found as [|j rest IH]; [done|].
  rewrite filter_cons_True by apply not_elem_of_empty.
  f_equal. apply IH. unfold ids in *. rewrite fmap_cons in Hnd.
  by apply NoDup_cons in Hnd as [_ ?].
Qed.

Lemma differ_all_seen seen found :
  (∀ x, x ∈ ids found → x ∈ seen) → differ seen found = [].
Proof.
  intros Hall. apply new_jobs_nil. intros j Hj. apply Hall.
  apply list_elem_of_fmap_2.
  eapply elem_of_sublist; [exact Hj|apply uniq_loop_sublist].
Qed.

(** With a port that converts, a cycle that found something new returns
    with the new ids added to the set and the set saved, whatever the
    channels did. *)
Lemma check_once_commits urljoin env net st found :
  port_ok env →
  (fetch_pages urljoin net (seq 1 PAGES_TO_CHECK) [] st).1 = Returns found →
  differ (seen_set st) found ≠ [] →
  let seen' := seen_update (seen_set st) (differ (seen_set st) found) in
  (check_once urljoin env net st).1 = Returns seen'
  ∧ seen_set (check_once urljoin env net st).2 = seen'
  ∧ seen_file (check_once urljoin env net st).2 = Some (dump_sorted seen').
Proof.
  intros Hport Hfetch Hnew seen'.
  open_cycle env Hfetch st1 Hrun. fold seen'.
  destruct (differ (seen_set st) found) as [|j new'] eqn:Hd; [done|].
  destruct (returns_alert env net (j :: new') Hport
    (State (seen_set st) (seen_file st)
       (journal st1 ++ [LogInfo ("New jobs: " +:+ pretty (length (j :: new')))])))
    as [[] Hret].
  destruct (alert env net (j :: new') _) as [o st3]. simpl in Hret. subst o.
  done.
Qed.

(** A cycle that found nothing new returns the set as it was, writes
    nothing and only adds the "No new jobs." entry to the log. *)
Lemma check_once_nothing_new urljoin env net st found :
  (fetch_pages urljoin net (seq 1 PAGES_TO_CHECK) [] st).1 = Returns found →
  differ (seen_set st) found = [] →
  (check_once urljoin env net st).1 = Returns (seen_set st)
  ∧ seen_set (check_once urljoin env net st).2 = seen_set st
  ∧ seen_file (check_once urljoin env net st).2 = seen_file st
  ∧ journal (check_once urljoin env net st).2 =
      journal (fetch_pages urljoin net (seq 1 PAGES_TO_CHECK) [] st).2
      ++ [LogInfo "No new jobs."].
Proof.
  intros Hfetch Hnew.
  open_cycle env Hfetch st1 Hrun. by rewrite Hrun, Hnew.
Qed.

(** C7 (the code departs from it): with no channel configured and
    [SMTP_PORT] set to [abc], a cycle that found new records raises out of
    [alert]; lines 127-128 are not reached, so the set and the seen file
    stay as they were and the new ids are not marked seen. *)
Theorem check_once_skips_commit_on_malformed_port
    (urljoin : string → string → string) (net : network) (st : state)
    (found : list job) :
  (fetch_pages urljoin net (seq 1 PAGES_TO_CHECK) [] st).1 = Returns found →
  differ (seen_set st) found ≠ [] →
  (check_once urljoin Fixtures.bad_port_env net st).1 = Raises ValueError
  ∧ seen_set (check_once urljoin Fixtures.bad_port_env net st).2 = seen_set st
  ∧ seen_file (check_once urljoin Fixtures.bad_port_env net st).2 = seen_file st
  ∧ Forall (λ j, id j ∉ seen_set (check_once urljoin Fixtures.bad_port_env net st).2)
           (differ (seen_set st) found).
Proof.
  intros Hfetch Hnew.
  open_cycle Fixtures.bad_port_env Hfetch st1 Hrun.
  pose proof (differ_not_seen (seen_set st) found) as Hfresh.
  destruct (differ (seen_set st) found) as [|j new'] eqn:Hd; [done|].
  rewrite (alert_unconfigured_malformed_port _ _ _ _ _ "abc" ValueError) by done.
  done.
Qed.

Lemma check_once_skips_commit_on_malformed_port_witness :
  (check_once Fixtures.fake_urljoin Fixtures.bad_port_env Fixtures.fake_net
              Fixtures.seen_a).1 = Raises ValueError
  ∧ seen_file (check_once Fixtures.fake_urljoin Fixtures.bad_port_env
                          Fixtures.fake_net Fixtures.seen_a).2
    = Some (Document (JArr [JStr "A::t1"])).
Proof.
  destruct (check_once_skips_commit_on_malformed_port Fixtures.fake_urljoin
              Fixtures.fake_net Fixtures.seen_a [Fixtures.job_a; Fixtures.job_b])
    as (Hraise & _ & Hfile & _).
  - vm_compute. reflexivity.
  - vm_compute. discriminate.
  - split; [exact Hraise|]. rewrite Hfile. reflexivity.
Defined.

(** ** The end-to-end scenario *)

Lemma two_ids_differ found :
  ids found = ["A::t1"; "B::t2"] →
  differ ∅ found = found ∧ length found = 2
  ∧ seen_update ∅ found = {[ "A::t1"; "B::t2" ]}.
Proof.
  intros Hids. split; [|split].
  - apply differ_fresh. rewrite Hids.
    apply NoDup_cons. split; [|apply NoDup_singleton].
    by intros ?%list_elem_of_singleton.
  - apply (f_equal length) in Hids. unfold ids in Hids.
    by rewrite length_fmap in Hids.
  - unfold seen_update. rewrite Hids. vm_compute. reflexivity.
Qed.

(** With a port that converts, the first cycle over the two listings
    reports two new jobs, returns, and leaves the sorted pair in the file. *)
Lemma first_cycle_persists urljoin env net st found :
  port_ok env →
  (fetch_pages urljoin net (seq 1 PAGES_TO_CHECK) [] st).1 = Returns found →
  ids found = ["A::t1"; "B::t2"] → seen_set st = ∅ →
  (check_once urljoin env net st).1 = Returns {[ "A::t1"; "B::t2" ]}
  ∧ seen_file (check_once urljoin env net st).2
    = Some (Document (JArr [JStr "A::t1"; JStr "B::t2"])).
Proof.
  intros Hport Hfetch Hids Hseen.
  destruct (two_ids_differ found Hids) as (Hd & _ & Hup).
  destruct (check_once_commits urljoin env net st found Hport Hfetch)
    as (Hret & _ & Hfile).
  { rewrite Hseen, Hd. intros ->. discriminate Hids. }
  rewrite Hseen, Hd, Hup in Hret, Hfile. split; [exact Hret|].
  rewrite Hfile. reflexivity.
Qed.

(** A second cycle over the same records, with the set the first one
    left, finds nothing new: no delivery, no write, the file as it was. *)
Lemma second_cycle_changes_nothing urljoin env net st found :
  (fetch_pages urljoin net (seq 1 PAGES_TO_CHECK) [] st).1 = Returns found →
  ids found = ["A::t1"; "B::t2"] → seen_set st = {[ "A::t1"; "B::t2" ]} →
  differ (seen_set st) found = []
  ∧ (check_once urljoin env net st).1 = Returns (seen_set st)
  ∧ seen_file (check_once urljoin env net st).2 = seen_file st
  ∧ journal (check_once urljoin env net st).2 =
      journal (fetch_pages urljoin net (seq 1 PAGES_TO_CHECK) [] st).2
      ++ [LogInfo "No new jobs."].
Proof.
  intros Hfetch Hids Hseen.
  assert (differ (seen_set st) found = []) as Hd.
  { apply differ_all_seen. rewrite Hids, Hseen. intros x Hx.
    apply elem_of_cons in Hx. destruct Hx as [->|Hx]; [set_solver|].
    apply list_elem_of_singleton in Hx as ->. set_solver. }
  split; [exact Hd|].
  destruct (check_once_nothing_new urljoin env net st found Hfetch Hd)
    as (H1 & _ & H3 & H4).
  done.
Qed.

(** C1 (the code departs from it): in the scenario of two parsed listings
    [A::t1] and [B::t2] and an empty seen set, with no channel configured
    and [SMTP_PORT] set to [abc], the cycle detects the two new records and
    logs their number, attempts delivery, and raises [ValueError] out of
    it: no seen file is written and the set stays empty. *)
Theorem first_cycle_not_persisted_on_malformed_port
    (urljoin : string → string → string) (net : network) (st : state)
    (found : list job) :
  (fetch_pages urljoin net (seq 1 PAGES_TO_CHECK) [] st).1 = Returns found →
  ids found = ["A::t1"; "B::t2"] → seen_set st = ∅ →
  length (differ (seen_set st) found) = 2
  ∧ last (journal (check_once urljoin Fixtures.bad_port_env net st).2)
    = Some (LogInfo "New jobs: 2")
  ∧ (check_once urljoin Fixtures.bad_port_env net st).1 = Raises ValueError
  ∧ seen_file (check_once urljoin Fixtures.bad_port_env net st).2 = seen_file st
  ∧ seen_set (check_once urljoin Fixtures.bad_port_env net st).2 = ∅.
Proof.
  intros Hfetch Hids Hseen.
  destruct (two_ids_differ found Hids) as (Hd & Hlen & _).
  rewrite Hseen, Hd. split; [exact Hlen|].
  open_cycle Fixtures.bad_port_env Hfetch st1 Hrun. rewrite Hseen, Hd.
  destruct found as [|j new']; [discriminate Hids|].
  rewrite (alert_unconfigured_malformed_port _ _ _ _ _ "abc" ValueError) by done.
  rewrite Hlen. cbn [fst snd seen_set seen_file journal].
  split; [apply last_snoc|done].
Qed.

Lemma first_cycle_not_persisted_on_malformed_port_witness :
  (check_once Fixtures.fake_urljoin Fixtures.bad_port_env Fixtures.fake_net
              Fixtures.fresh).1 = Raises ValueError
  ∧ seen_file (check_once Fixtures.fake_urljoin Fixtures.bad_port_env
                          Fixtures.fake_net Fixtures.fresh).2 = None.
Proof.
  destruct (first_cycle_not_persisted_on_malformed_port Fixtures.fake_urljoin
              Fixtures.fake_net Fixtures.fresh [Fixtures.job_a; Fixtures.job_b])
    as (_ & _ & Hraise & Hfile & _).
  - vm_compute. reflexivity.
  - reflexivity.
  - reflexivity.
  - split; [exact Hraise|exact Hfile].
Defined.

(** * Further properties of the code *)

(** ** The differ across pages *)

Lemma uniq_loop_filter found (U V : gset string) :
  uniq_loop found (U ∪ V) [] = filter (λ j, id j ∉ U) (uniq_loop found V []).
Proof.
  revert V. induction found as [|j rest IH]; intros V; [done|].
  rewrite !uniq_loop_cons.
  destruct (decide (id j ∈ V)) as [HV|HV].
  - rewrite decide_True by set_solver. apply IH.
  - destruct (decide (id j ∈ U)) as [HU|HU].
    + rewrite decide_True by set_solver.
      rewrite filter_cons_False by (intros Hn; by apply Hn).
      rewrite <- IH. f_equal. set_solver.
    + rewrite decide_False by set_solver.
      rewrite filter_cons_True by done. f_equal.
      rewrite <- IH. f_equal. set_solver.
Qed.

Lemma uniq_loop_app l1 l2 (U : gset string) :
  uniq_loop (l1 ++ l2) U [] =
    uniq_loop l1 U [] ++ uniq_loop l2 (list_to_set (ids l1) ∪ U) [].
Proof.
  revert U. induction l1 as [|j l1 IH]; intros U.
  - simpl. f_equal. set_solver.
  - change ((j :: l1) ++ l2) with (j :: (l1 ++ l2)).
    change (ids (j :: l1)) with (id j :: ids l1).
    rewrite !uniq_loop_cons, list_to_set_cons.
    destruct (decide (id j ∈ U)) as [HU|HU].
    + rewrite IH. f_equal. f_equal. set_solver.
    + rewrite IH. simpl. f_equal. f_equal. f_equal. set_solver.
Qed.

(** X1: dedup across pages.  The records kept of a concatenation are the
    records kept of the first part, followed by the records kept of the
    second part whose id did not occur in the first; and deduplicating an
    already deduplicated list changes nothing. *)
Theorem unique_jobs_app (page1 page2 : list job) :
  unique_jobs (page1 ++ page2) =
    unique_jobs page1
    ++ filter (λ j, id j ∉ ids page1) (unique_jobs page2)
  ∧ unique_jobs (unique_jobs (page1 ++ page2)) = unique_jobs (page1 ++ page2).
Proof.
  split.
  - unfold unique_jobs. rewrite uniq_loop_app. f_equal.
    rewrite uniq_loop_filter. apply list_filter_iff. intros j.
    by rewrite elem_of_list_to_set.
  - unfold unique_jobs at 1. apply uniq_loop_NoDup_id.
    + apply uniq_loop_NoDup.
    + intros x _. apply not_elem_of_empty.
Qed.

Lemma differ_covers (seen : gset string) found j :
  j ∈ found → id j ∉ seen → id j ∈ ids (differ seen found).
Proof.
  intros Hj Hnew.
  pose proof (uniq_loop_covers found ∅ j Hj (not_elem_of_empty _)) as Hcov.
  apply list_elem_of_fmap in Hcov as (k & Hid & Hk).
  rewrite Hid. apply list_elem_of_fmap_2.
  apply list_elem_of_filter. split; [by rewrite <- Hid|exact Hk].
Qed.

(** X2: the differ misses nothing and keeps the order.  Every record of the
    input whose id is not in the seen set has its id among the new records,
    and the new records appear in the order of the input. *)
Theorem differ_complete (seen : gset string) (found : list job) :
  Forall (λ j, id j ∉ seen → id j ∈ ids (differ seen found)) found
  ∧ differ seen found `sublist_of` found.
Proof.
  split.
  - apply Forall_forall. intros j Hj Hnew. by apply differ_covers.
  - unfold differ, new_jobs. etrans; [apply sublist_filter|apply uniq_loop_sublist].
Qed.

Lemma differ_complete_witness :
  let found := [Fixtures.job_a; Fixtures.job_b; Fixtures.job_a] in
  id Fixtures.job_b ∈ ids (differ {[ "A::t1" ]} found).
Proof.
  intros found.
  destruct (differ_complete {[ "A::t1" ]} found) as [Hall _].
  rewrite Forall_forall in Hall.
  apply (Hall Fixtures.job_b).
  - right. left.
  - vm_compute. intros H. discriminate H.
Defined.

(** ** The parser: which records come out *)

Lemma parse_loop_built urljoin base anchors jobs (seen_links : gset string) :
  (∀ l, l ∈ seen_links ↔ l ∈ link <$> jobs) →
  NoDup (link <$> jobs) →
  ∃ kept new,
    parse_loop urljoin base anchors jobs seen_links = Returns (jobs ++ new)
    ∧ kept `sublist_of` anchors
    ∧ Forall2 (built_from urljoin base) kept new
    ∧ Forall (λ a, a_text a ≠ "") kept
    ∧ NoDup (link <$> (jobs ++ new))
    ∧ Forall (λ a, a_text a ≠ "" →
                   urljoin base (default "" (a_href a)) ∈ link <$> (jobs ++ new))
             anchors.
Proof.
  revert jobs seen_links.
  induction anchors as [|a rest IH]; intros jobs seen_links Hlinks Hnd.
  { exists [], []. rewrite app_nil_r. simpl. repeat split; auto; constructor. }
  simpl.
  destruct (bool_decide (a_text a = "")
            || bool_decide (urljoin base (default "" (a_href a)) ∈ seen_links))
    eqn:Hskip.
  - destruct (IH jobs seen_links Hlinks Hnd)
      as (kept & new & Hrun & Hsub & Hbuilt & Htitles & Hnd' & Hall).
    exists kept, new. split; [exact Hrun|]. split; [by apply sublist_cons|].
    split; [done|]. split; [done|]. split; [done|].
    constructor; [|done]. intros Htitle.
    apply orb_true_iff in Hskip as [Ht|Hl].
    + by apply bool_decide_eq_true in Ht.
    + apply bool_decide_eq_true in Hl. rewrite fmap_app.
      apply elem_of_app. left. by apply Hlinks.
  - apply orb_false_iff in Hskip as [Ht Hl].
    apply bool_decide_eq_false in Ht, Hl.
    destruct (updated_of_returns a) as [u Hu]. rewrite Hu.
    set (lnk := urljoin base (default "" (a_href a))) in *.
    set (j := Job (lnk +:+ "::" +:+ u) (a_text a)
                  (org_walk 6 (a_parent_next_siblings a) (a_next_siblings a)) lnk u).
    destruct (IH (jobs ++ [j]) ({[ lnk ]} ∪ seen_links))
      as (kept & new & Hrun & Hsub & Hbuilt & Htitles & Hnd' & Hall).
    { intros l. rewrite fmap_app, elem_of_app, elem_of_union, elem_of_singleton.
      simpl. rewrite list_elem_of_singleton, Hlinks. tauto. }
    { rewrite fmap_app. apply NoDup_app. split; [done|]. split.
      - intros l Hin ->%list_elem_of_singleton. apply Hl. by apply Hlinks.
      - apply NoDup_singleton. }
    rewrite <- app_assoc in Hrun, Hnd', Hall. simpl in Hrun, Hnd', Hall.
    exists (a :: kept), (j :: new). split; [exact Hrun|].
    split; [by apply sublist_skip|].
    split; [constructor; [by repeat split|done]|].
    split; [by constructor|]. split; [done|].
    constructor; [|done]. intros _.
    rewrite fmap_app. apply elem_of_app. right. by left.
Qed.

Lemma parse_jobs_built urljoin page base :
  ∃ kept jobs,
    parse_jobs urljoin page base = Returns jobs
    ∧ kept `sublist_of` find_all_jobs page
    ∧ Forall2 (built_from urljoin base) kept jobs
    ∧ Forall (λ a, a_text a ≠ "") kept
    ∧ NoDup (link <$> jobs)
    ∧ Forall (λ a, a_text a ≠ "" →
                   urljoin base (default "" (a_href a)) ∈ link <$> jobs)
             (find_all_jobs page).
Proof.
  destruct (parse_loop_built urljoin base (find_all_jobs page) [] ∅)
    as (kept & new & H); [|constructor|by exists kept, new].
  intros l. rewrite elem_of_empty. simpl. by rewrite elem_of_nil.
Qed.




(** ** The parser: organisation and time stamp *)

Lemma org_walk_not_updated k parent_next cur_next :
  startswith (org_walk k parent_next cur_next) "Updated:" = false.
Proof.
  revert cur_next. induction k as [|k IH]; intros cur_next; simpl; [done|].
  destruct (node_or cur_next parent_next) as [|n n_next]; [done|].
  destruct (truthy n); [|done].
  destruct (bool_decide (node_text n ≠ "") && negb (startswith (node_text n) "Updated:"))
    eqn:Hok; [|apply IH].
  apply andb_true_iff in Hok as [_ Hok]. by apply negb_true_iff in Hok.
Qed.

Lemma org_walk_passes k parent_next pre rest :
  Forall (λ n, truthy n = true
               ∧ (node_text n = "" ∨ startswith (node_text n) "Updated:" = true)) pre →
  org_walk (length pre + k) parent_next (pre ++ rest) = org_walk k parent_next rest.
Proof.
  induction 1 as [|n pre [Ht Hrej] _ IH]; [done|].
  simpl. rewrite Ht. simpl. rewrite Ht.
  assert (bool_decide (node_text n ≠ "")
          && negb (startswith (node_text n) "Updated:") = false) as ->; [|exact IH].
  destruct Hrej as [->| ->]; [done|]. by rewrite andb_false_r.
Qed.



Lemma nonspace_run_no_space s : has_space (nonspace_run s) = false.
Proof.
  induction s as [|c s IH]; [done|]. simpl.
  destruct (py_isspace c) eqn:Hc; [done|]. simpl. by rewrite Hc.
Qed.

Lemma re_search_at {A} (p : string → option A) s m :
  re_search p s = Some m → ∃ t, p t = Some m.
Proof.
  induction s as [|c s IH]; simpl.
  - destruct (p "") eqn:Hp; [|done]. intros [= <-]. eauto.
  - destruct (p (String c s)) eqn:Hp; [intros [= <-]; eauto|apply IH].
Qed.

Lemma updated_of_no_space upd_node u :
  updated_of upd_node = Returns u → has_space u = false.
Proof.
  unfold updated_of. destruct upd_node as [s|]; [|by intros [= <-]].
  destruct (decide (s = "")); [by intros [= <-]|].
  destruct (re_search re_updated_token_at s) as [tok|] eqn:Hs; [|done].
  intros [= <-]. apply re_search_at in Hs as (t & Ht).
  unfold re_updated_token_at in Ht.
  apply bind_Some in Ht as (r & _ & Ht).
  destruct (decide (nonspace_run (lstrip r) = "")); [done|].
  injection Ht as <-. apply nonspace_run_no_space.
Qed.

Lemma nonspace_run_id s : has_space s = false → nonspace_run s = s.
Proof.
  induction s as [|c s IH]; [done|]. simpl.
  intros [Hc Hs]%orb_false_iff. rewrite Hc. f_equal. by apply IH.
Qed.

Lemma lstrip_id s : has_space s = false → lstrip s = s.
Proof. destruct s as [|c s]; [done|]. simpl. by intros [-> _]%orb_false_iff. Qed.

Lemma re_search_head {A} (p : string → option A) s :
  is_Some (p s) → re_search p s = p s.
Proof. intros [m Hm]. destruct s; simpl; by rewrite Hm. Qed.

Lemma find_head {A} (f : A → bool) x l : f x = true → List.find f (x :: l) = Some x.
Proof. intros Hx. simpl. by rewrite Hx. Qed.



(** ** The seen store: what is saved can be loaded *)

Lemma py_set_dump (seen : gset string) :
  py_set (JArr (JStr <$> sorted (elements seen))) = Returns (StrSet seen).
Proof.
  unfold py_set. rewrite mapM_as_str.
  assert (forallb hashable (JStr <$> sorted (elements seen)) = true) as ->.
  { induction (sorted (elements seen)); [done|]. done. }
  do 2 f_equal. unfold sorted.
  rewrite (list_to_set_perm_L _ _ (merge_sort_Permutation _ _)).
  apply list_to_set_elements_L.
Qed.

Lemma load_seen_dump seen_obj seen log :
  load_seen (State seen_obj (Some (dump_sorted seen)) log) =
    (Returns (StrSet seen), State seen_obj (Some (dump_sorted seen)) log).
Proof.
  unfold load_seen, read_seen_file. rewrite bind_run.
  unfold dump_sorted, lift. cbn [seen_file]. by rewrite py_set_dump.
Qed.

(** X7: round trip of the seen store.  Loading after [save_seen] returns
    exactly the set that was saved, whatever the file held before and
    whatever set object the process holds, and leaves the state as the save
    left it. *)
Theorem save_load_roundtrip (seen : gset string) (st : state) :
  load_seen (save_seen seen st).2 = (Returns (StrSet seen), (save_seen seen st).2).
Proof. rewrite save_seen_run. cbn [snd]. apply load_seen_dump. Qed.

(** ** The page loop *)

Lemma parse_jobs_returns urljoin page base :
  ∃ jobs, parse_jobs urljoin page base = Returns jobs.
Proof.
  destruct (parse_jobs_built urljoin page base) as (_ & jobs & Hrun & _). eauto.
Qed.

Lemma fetch_pages_run urljoin net pages found st :
  fetch_pages urljoin net pages found st =
    (Returns (found ++ pages ≫= page_jobs urljoin net),
     State (seen_set st) (seen_file st)
           (journal st ++ pages ≫= page_events urljoin net)).
Proof.
  revert found st. induction pages as [|p rest IH]; intros found st.
  { simpl. rewrite !app_nil_r. by destruct st. }
  cbn [fetch_pages]. rewrite bind_run.
  unfold try_except at 1. rewrite bind_run. unfold fetch at 1.
  rewrite bind_run, emit_run.
  cbn [mbind list_bind]. unfold page_jobs at 1, page_events at 1.
  destruct (http_get net (page_url p)) as [page|].
  - cbn [mret M_ret]. rewrite bind_run. unfold lift at 1.
    destruct (parse_jobs_returns urljoin page BASE_URL) as [jobs ->].
    rewrite bind_run, emit_run. cbn [mret M_ret].
    rewrite IH. cbn [seen_set seen_file journal].
    by rewrite <- !app_assoc.
  - unfold raise at 1. rewrite bind_run, emit_run. cbn [mret M_ret].
    rewrite IH. cbn [seen_set seen_file journal].
    by rewrite app_nil_l, <- !app_assoc.
Qed.


(** ** The two channels *)

Lemma env_truthy_Some v : env_truthy v = true → ∃ s, v = Some s ∧ s ≠ "".
Proof.
  destruct v as [s|]; [|done]. simpl. intros Hs%bool_decide_eq_true. eauto.
Qed.

Lemma send_telegram_run_eq env net msg st :
  send_telegram env net msg st =
    if telegram_configured env then
      if telegram_ok net (telegram_url env)
                     (default "" (env !! "TELEGRAM_CHAT_ID")) msg
      then (Returns true,
            State (seen_set st) (seen_file st)
                  (journal st ++ [TelegramPost (telegram_url env)
                                     (default "" (env !! "TELEGRAM_CHAT_ID")) msg]))
      else (Returns false,
            State (seen_set st) (seen_file st)
                  (journal st ++ [TelegramPost (telegram_url env)
                                     (default "" (env !! "TELEGRAM_CHAT_ID")) msg;
                                  LogException "Telegram failed"]))
    else (Returns false, st).
Proof.
  unfold telegram_configured.
  destruct (env_truthy (env !! "TELEGRAM_BOT_TOKEN")
            && env_truthy (env !! "TELEGRAM_CHAT_ID")) eqn:Hcfg.
  - apply andb_true_iff in Hcfg as [Htok Hchat].
    apply env_truthy_Some in Htok as (token & Htok & Htok_ne).
    apply env_truthy_Some in Hchat as (chat & Hchat & Hchat_ne).
    rewrite (send_telegram_configured env net msg st token chat) by done.
    unfold telegram_url. by rewrite Htok, Hchat.
  - by apply send_telegram_unconfigured.
Qed.

(** X9: the Telegram channel.  [send_telegram] never raises and touches
    neither the set nor the file.  Without a non-empty token and chat id it
    returns [False] without making a request; otherwise it makes exactly one
    POST to the bot URL of the token and returns [True] when the request
    goes through, and logs the failure and returns [False] when it does
    not. *)
Theorem send_telegram_outcome (env : gmap string string) (net : network)
    (msg : string) (st : state) :
  let post := TelegramPost (telegram_url env)
                           (default "" (env !! "TELEGRAM_CHAT_ID")) msg in
  let st_with evs := State (seen_set st) (seen_file st) (journal st ++ evs) in
  send_telegram env net msg st =
    if telegram_configured env then
      if telegram_ok net (telegram_url env)
                     (default "" (env !! "TELEGRAM_CHAT_ID")) msg
      then (Returns true, st_with [post])
      else (Returns false, st_with [post; LogException "Telegram failed"])
    else (Returns false, st).
Proof.
  intros post st_with. apply send_telegram_run_eq.
Qed.

Lemma py_int_raises s e : py_int s = Raises e → e = ValueError.
Proof.
  unfold py_int. destruct (strip s) as [|c r].
  - destruct (int_digits "" 0 false); [done|]. by intros [= <-].
  - match goal with |- match ?p with _ => _ end = _ → _ =>
      destruct p; [done|by intros [= <-]] end.
Qed.

Lemma send_email_run_eq env net subject body st :
  send_email env net subject body st =
    match smtp_port env with
    | None => (Raises ValueError, st)
    | Some port =>
        if email_configured env then
          if smtp_ok net (default "" (env !! "SMTP_HOST")) port
                     (default "" (env !! "SMTP_USER")) (default "" (env !! "SMTP_PASS"))
                     (default "" (env !! "ALERT_EMAIL")) subject body
          then (Returns true,
                State (seen_set st) (seen_file st)
                  (journal st ++
                   [SmtpSend (default "" (env !! "SMTP_HOST")) port
                      (default "" (env !! "SMTP_USER")) (default "" (env !! "SMTP_PASS"))
                      (default "" (env !! "ALERT_EMAIL")) subject body]))
          else (Returns false,
                State (seen_set st) (seen_file st)
                  (journal st ++
                   [SmtpSend (default "" (env !! "SMTP_HOST")) port
                      (default "" (env !! "SMTP_USER")) (default "" (env !! "SMTP_PASS"))
                      (default "" (env !! "ALERT_EMAIL")) subject body;
                    LogException "Email failed"]))
        else (Returns false, st)
    end.
Proof.
  set (session port :=
    SmtpSend (default "" (env !! "SMTP_HOST")) port
             (default "" (env !! "SMTP_USER")) (default "" (env !! "SMTP_PASS"))
             (default "" (env !! "ALERT_EMAIL")) subject body).
  set (st_with evs := State (seen_set st) (seen_file st) (journal st ++ evs)).
  assert (∀ port,
    (if negb (email_configured env) then mret false
     else try_except
            (smtp_session net (default "" (env !! "SMTP_HOST")) port
               (default "" (env !! "SMTP_USER")) (default "" (env !! "SMTP_PASS"))
               (default "" (env !! "ALERT_EMAIL")) subject body;; mret true)
            (emit (LogException "Email failed");; mret false)) st =
    if email_configured env then
      if smtp_ok net (default "" (env !! "SMTP_HOST")) port
                 (default "" (env !! "SMTP_USER")) (default "" (env !! "SMTP_PASS"))
                 (default "" (env !! "ALERT_EMAIL")) subject body
      then (Returns true, st_with [session port])
      else (Returns false, st_with [session port; LogException "Email failed"])
    else (Returns false, st)) as Hbody.
  { intros port. destruct (email_configured env); [|done]. cbn [negb].
    unfold try_except, smtp_session. rewrite !bind_run, emit_run.
    destruct (smtp_ok net _ port _ _ _ subject body); [done|].
    unfold raise. rewrite bind_run, emit_run. cbn [seen_set seen_file journal].
    unfold st_with. by rewrite <- app_assoc. }
  unfold send_email, getenv, smtp_port. fold (email_configured env).
  rewrite bind_run.
  destruct (env !! "SMTP_PORT") as [s|]; [|apply Hbody].
  destruct (decide (s = "")); [apply Hbody|].
  unfold lift. destruct (py_int s) as [port|e] eqn:Hint; [apply Hbody|].
  by rewrite (py_int_raises s e Hint).
Qed.


(** X11: a delivered Telegram message ends the notification.  When both
    Telegram variables are set and the POST goes through, [alert] makes
    that one request and nothing else: the email channel is not entered, so
    no SMTP session is opened and a malformed [SMTP_PORT] does no harm. *)
Theorem alert_stops_after_telegram (env : gmap string string) (net : network)
    (j : job) (new : list job) (st : state) :
  telegram_configured env = true →
  telegram_ok net (telegram_url env) (default "" (env !! "TELEGRAM_CHAT_ID"))
              (alert_message (j :: new)) = true →
  alert env net (j :: new) st =
    (Returns (),
     State (seen_set st) (seen_file st)
           (journal st ++ [TelegramPost (telegram_url env)
                                        (default "" (env !! "TELEGRAM_CHAT_ID"))
                                        (alert_message (j :: new))])).
Proof.
  intros Hcfg Hok. rewrite alert_run. cbv zeta.
  pose proof (send_telegram_run_eq env net (alert_message (j :: new)) st) as Hrun.
  rewrite Hcfg, Hok in Hrun. by rewrite Hrun.
Qed.

(** ** The message *)

Lemma str_join_head_nonempty sep x l : x ≠ "" → str_join sep (x :: l) ≠ "".
Proof.
  intros Hx. destruct l as [|y l]; [done|].
  destruct x as [|c x]; [done|]. simpl. discriminate.
Qed.

(** X12: the layout of the message.  The message is the newline-joined
    sequence of, for each new record in order, its title in bold, its
    organisation if non-empty, its link if non-empty, and [Updated: ] with
    its time stamp if non-empty; for a non-empty list it is never the empty
    string. *)
Theorem alert_message_layout (new : list job) :
  alert_message new =
    str_join NL
      (new ≫= λ j,
         ["<b>" +:+ title j +:+ "</b>"]
         ++ (if decide (org j = "") then [] else [org j])
         ++ (if decide (link j = "") then [] else [link j])
         ++ (if decide (updated j = "") then [] else ["Updated: " +:+ updated j]))
  ∧ (new ≠ [] → alert_message new ≠ "").
Proof.
  assert (alert_message new =
    str_join NL
      (new ≫= λ j,
         ["<b>" +:+ title j +:+ "</b>"]
         ++ (if decide (org j = "") then [] else [org j])
         ++ (if decide (link j = "") then [] else [link j])
         ++ (if decide (updated j = "") then [] else ["Updated: " +:+ updated j])))
    as Heq.
  { rewrite alert_message_lines. f_equal.
    induction new as [|j new IH]; [done|].
    cbn [mbind list_bind]. by rewrite IH, kept_job_lines. }
  split; [exact Heq|]. intros Hne. rewrite Heq.
  destruct new as [|j new]; [done|].
  cbn [mbind list_bind]. rewrite <- !app_assoc.
  apply str_join_head_nonempty. discriminate.
Qed.

Lemma alert_message_layout_witness :
  alert_message [Fixtures.job_a; Fixtures.bare_1] =
    str_join NL ["<b>A</b>"; "A"; "Updated: t1"; "<b>Driver</b>"; "https://x/jobs/1"]
  ∧ alert_message [Fixtures.job_a; Fixtures.bare_1] ≠ "".
Proof.
  destruct (alert_message_layout [Fixtures.job_a; Fixtures.bare_1]) as [Heq Hne].
  split; [rewrite Heq; reflexivity|apply Hne; discriminate].
Defined.

Lemma alert_stops_after_telegram_witness :
  let net := Network (λ _, None) (λ _ _ _, true) (λ _ _ _ _ _ _ _, false) in
  (alert Fixtures.full_bad_port_env net [Fixtures.job_a] Fixtures.fresh).1 = Returns ().
Proof.
  intros net.
  rewrite (alert_stops_after_telegram Fixtures.full_bad_port_env net
             Fixtures.job_a [] Fixtures.fresh); reflexivity.
Defined.

(** ** One cycle, from the network to the store *)

Lemma check_once_eq urljoin env net st :
  let new := differ (seen_set st) (gathered urljoin net) in
  let log := journal st ++ gather_events urljoin net in
  check_once urljoin env net st =
    match new with
    | [] => (Returns (seen_set st),
             State (seen_set st) (seen_file st) (log ++ [LogInfo "No new jobs."]))
    | _ :: _ =>
        match alert env net new
                (State (seen_set st) (seen_file st)
                   (log ++ [LogInfo ("New jobs: " +:+ pretty (length new))])) with
        | (Returns _, st3) =>
            let seen' := seen_update (seen_set st) new in
            (Returns seen',
             State seen' (Some (dump_sorted seen'))
                   (journal st3 ++ [WriteSeen (dump_sorted seen')]))
        | (Raises e, st3) => (Raises e, st3)
        end
    end.
Proof.
  intros new log.
  destruct (check_once_run urljoin env net st) as (found & st1 & Hrun & _ & _ & Heq).
  rewrite fetch_pages_run in Hrun. injection Hrun as <- <-.
  exact Heq.
Qed.

Lemma differ_nil_all_seen (seen : gset string) found :
  differ seen found = [] → Forall (λ j, id j ∈ seen) found.
Proof.
  intros Hnil. apply Forall_forall. intros j Hj.
  destruct (decide (id j ∈ seen)) as [|Hnew]; [done|].
  pose proof (differ_covers seen found j Hj Hnew) as Hin.
  rewrite Hnil in Hin. by apply elem_of_nil in Hin.
Qed.

(** X13: a cycle with nothing new is silent.  When every gathered record
    is already in the set, [check_once] returns the set unchanged, leaves
    the file as it is, and does nothing beyond fetching the pages and
    logging "No new jobs.": no notification request, no write. *)
Theorem check_once_quiet (urljoin : string → string → string)
    (env : gmap string string) (net : network) (st : state) :
  Forall (λ j, id j ∈ seen_set st) (gathered urljoin net) →
  check_once urljoin env net st =
    (Returns (seen_set st),
     State (seen_set st) (seen_file st)
           (journal st ++ gather_events urljoin net ++ [LogInfo "No new jobs."]))
  ∧ filter (λ e, is_outward e = true)
           (gather_events urljoin net ++ [LogInfo "No new jobs."]) = [].
Proof.
  intros Hall. split.
  - rewrite check_once_eq. cbv zeta.
    rewrite differ_all_seen; [by rewrite <- app_assoc|].
    rewrite Forall_forall in Hall.
    intros x (j & -> & Hj)%list_elem_of_fmap. by apply Hall.
  - rewrite filter_app. rewrite app_nil_r. unfold gather_events.
    induction (seq 1 PAGES_TO_CHECK) as [|p rest IH]; [done|].
    cbn [mbind list_bind]. rewrite filter_app, IH, app_nil_r.
    unfold page_events. destruct (http_get net (page_url p)) as [page|]; [|done].
    by destruct (parse_jobs urljoin page BASE_URL).
Qed.

Lemma check_once_quiet_witness :
  (check_once Fixtures.fake_urljoin Fixtures.bad_port_env Fixtures.fake_net
     (State {[ "A::t1"; "B::t2" ]} None [])).1 = Returns {[ "A::t1"; "B::t2" ]}.
Proof.
  destruct (check_once_quiet Fixtures.fake_urljoin Fixtures.bad_port_env
              Fixtures.fake_net (State {[ "A::t1"; "B::t2" ]} None [])) as [Heq _].
  - vm_compute. repeat constructor.
  - by rewrite Heq.
Defined.





(** X16: every gathered listing ends up seen.  When [check_once] returns,
    the set it returns contains the id of every record gathered in the
    cycle, so none of them is reported again by a later cycle. *)
Theorem check_once_marks_gathered (urljoin : string → string → string)
    (env : gmap string string) (net : network) (st : state) :
  match (check_once urljoin env net st).1 with
  | Returns s => Forall (λ j, id j ∈ s) (gathered urljoin net)
                 ∧ differ s (gathered urljoin net) = []
  | Raises _ => True
  end.
Proof.
  assert (∀ s : gset string, Forall (λ j, id j ∈ s) (gathered urljoin net) →
            differ s (gathered urljoin net) = []) as Hnone.
  { intros s Hall. apply differ_all_seen. rewrite Forall_forall in Hall.
    intros x (j & -> & Hj)%list_elem_of_fmap. by apply Hall. }
  rewrite check_once_eq. cbv zeta.
  destruct (differ (seen_set st) (gathered urljoin net)) as [|j new] eqn:Hd.
  - cbn [fst]. split; [by apply differ_nil_all_seen|]. by apply Hnone, differ_nil_all_seen.
  - destruct (alert env net (j :: new) _) as [[[]|e] st3]; [|done]. cbn [fst].
    assert (Forall (λ k, id k ∈ seen_update (seen_set st) (j :: new))
                   (gathered urljoin net)) as Hall; [|by split; [|apply Hnone]].
    apply Forall_forall. intros k Hk. unfold seen_update.
    destruct (decide (id k ∈ seen_set st)) as [|Hnew]; [by apply elem_of_union_l|].
    apply elem_of_union_r, elem_of_list_to_set. rewrite <- Hd.
    by apply differ_covers.
Qed.

(** ** Across cycles *)

Lemma load_seen_file s1 l1 s2 l2 f :
  (load_seen (State s1 f l1)).1 = (load_seen (State s2 f l2)).1.
Proof.
  unfold load_seen, read_seen_file. rewrite !bind_run. cbn [seen_file].
  by destruct f as [[|v]|].
Qed.

Lemma in_sync_store st st' :
  seen_set st' = seen_set st → seen_file st' = seen_file st →
  in_sync st → in_sync st'.
Proof.
  unfold in_sync. destruct st as [s f l], st' as [s' f' l']. simpl.
  intros -> ->. by rewrite (load_seen_file s l' s l f).
Qed.

Lemma in_sync_check_once urljoin env net st :
  in_sync st → in_sync (check_once urljoin env net st).2.
Proof.
  intros Hsync. rewrite check_once_eq. cbv zeta.
  destruct (differ (seen_set st) (gathered urljoin net)) as [|j new].
  - by apply (in_sync_store st).
  - match goal with |- context [alert env net ?n ?s] =>
      pose proof (keeps_store_alert env net n s) as [Hs Hf];
      destruct (alert env net n s) as [[[]|e] st3] end.
    + unfold in_sync. cbn [snd seen_set]. by rewrite load_seen_dump.
    + cbn [snd] in *. by apply (in_sync_store st).
Qed.



Lemma loop_cycles_quiet urljoin env net n st :
  Forall (λ j, id j ∈ seen_set st) (gathered urljoin net) →
  loop_cycles urljoin env net n st =
    (Returns (),
     State (seen_set st) (seen_file st)
           (journal st ++
            mjoin (replicate n (gather_events urljoin net
                                ++ [LogInfo "No new jobs."; Sleep (30 * 60)])))).
Proof.
  revert st. induction n as [|n IH]; intros st Hall.
  { simpl. rewrite app_nil_r. by destruct st. }
  cbn [loop_cycles replicate mjoin list_join]. rewrite bind_run.
  assert (check_once urljoin env net st =
    (Returns (seen_set st),
     State (seen_set st) (seen_file st)
           (journal st ++ gather_events urljoin net ++ [LogInfo "No new jobs."])))
    as ->.
  { rewrite check_once_eq. cbv zeta.
    rewrite differ_all_seen; [by rewrite <- app_assoc|].
    rewrite Forall_forall in Hall.
    intros x (j & -> & Hj)%list_elem_of_fmap. by apply Hall. }
  rewrite bind_run, emit_run. cbn [seen_set seen_file journal].
  rewrite IH by done. cbn [seen_set seen_file journal].
  do 2 f_equal. rewrite <- !app_assoc. do 2 f_equal.
Qed.

Lemma check_once_gathered_seen urljoin env net st s :
  (check_once urljoin env net st).1 = Returns s →
  s = seen_set (check_once urljoin env net st).2
  ∧ Forall (λ j, id j ∈ s) (gathered urljoin net).
Proof.
  rewrite check_once_eq. cbv zeta.
  destruct (differ (seen_set st) (gathered urljoin net)) as [|j new] eqn:Hd.
  - cbn [fst snd seen_set]. intros [= <-]. split; [done|]. by apply differ_nil_all_seen.
  - destruct (alert env net (j :: new) _) as [[[]|e] st3]; [|done].
    cbn [fst snd seen_set]. intros [= <-]. split; [done|].
    apply Forall_forall. intros k Hk. unfold seen_update.
    destruct (decide (id k ∈ seen_set st)) as [|Hnew]; [by apply elem_of_union_l|].
    apply elem_of_union_r, elem_of_list_to_set. rewrite <- Hd.
    by apply differ_covers.
Qed.


